(** * USRP_Visualizer: the streaming worker of [src/main.cpp]

    A shallow embedding of [RadioWorker::run] (the waveform synthesizer, the
    connection attempt, the send-or-sleep cycle, the burst framing and the
    try-lock publication of the sample buffer) and of the reader side
    [MainWindow::updatePlot], followed by the properties of the
    specification that were checked against them.

    The C++ code computes in [double] and stores [std::complex<float>].  The
    embedding is written once over an interface [Scalar] holding exactly the
    operations the code uses, and is read at three instances:
    - [DoubleScalar]: IEEE binary64 ([PrimFloat]); the libm functions [cos],
      [sin] and the narrowing to [float] are parameters ([DoubleTrig]);
    - [RealScalar], [RealTrig]: exact real arithmetic, the reading under
      which the statements made "up to tolerance" are exact;
    - [ProgramScalar]: exact real arithmetic in which [M_PI] is the value
      of the double of that name, which lies below [PI]. *)

From Stdlib Require Import ZArith List String Bool Lia PeanoNat.
From Stdlib Require Import Reals Lra Machin.
From Stdlib Require Import Floats.PrimFloat.
From Stdlib Require Import Numbers.Cyclic.Int63.Uint63.
Import ListNotations.

Set Implicit Arguments.

(* ================================================================== *)
(** ** Scalars *)

(** The arithmetic of the phase accumulator.  [lit] stands for the integral
    literals of the source ([0], [1.0], [-1.0], [2.0], [10e3], [1e6], ...),
    [m_pi] for [M_PI], [gtb] for the C++ [>] on doubles. *)
Class Scalar (T : Type) := {
  lit : Z -> T;
  m_pi : T;
  add : T -> T -> T;
  sub : T -> T -> T;
  mul : T -> T -> T;
  div : T -> T -> T;
  gtb : T -> T -> bool
}.

(** What turns a phase into a stored sample: [cos] and [sin] of <cmath> and
    the conversion [double -> float] done by the [std::complex<float>]
    constructor. *)
Class Trig (T : Type) := {
  cos_ : T -> T;
  sin_ : T -> T;
  narrow : T -> T
}.

(** Exact arithmetic. *)
#[export] Instance RealScalar : Scalar R := {|
  lit := IZR;
  m_pi := PI;
  add := Rplus;
  sub := Rminus;
  mul := Rmult;
  div := Rdiv;
  gtb := fun x y => if Rgt_dec x y then true else false
|}.

#[export] Instance RealTrig : Trig R := {|
  cos_ := cos;
  sin_ := sin;
  narrow := fun x => x
|}.

(** [M_PI] of <cmath>: 3.14159265358979323846 rounded to binary64. *)
Definition M_PI : float := 0x1.921fb54442d18p+1%float.

(** An integral literal as a double. *)
Definition float_of_Z (z : Z) : float :=
  if (z <? 0)%Z then PrimFloat.opp (PrimFloat.of_uint63 (Uint63.of_Z (- z)))
  else PrimFloat.of_uint63 (Uint63.of_Z z).

(** IEEE binary64. *)
Definition DoubleScalar : Scalar float := {|
  lit := float_of_Z;
  m_pi := M_PI;
  add := PrimFloat.add;
  sub := PrimFloat.sub;
  mul := PrimFloat.mul;
  div := PrimFloat.div;
  gtb := fun x y => PrimFloat.ltb y x
|}.

(** The platform's [cos], [sin] and [double -> float] on doubles. *)
Definition DoubleTrig (libm_cos libm_sin to_float : float -> float)
  : Trig float := {|
  cos_ := libm_cos;
  sin_ := libm_sin;
  narrow := to_float
|}.

(** The real number the double [M_PI] stands for: 7074237752028440 / 2^51. *)
Definition M_PI_value : R := 7074237752028440 / 2251799813685248.

(** Exact arithmetic in which [M_PI] is read as the real [m]: [RealScalar]
    is the case [m = PI]. *)
Definition ExactScalar (m : R) : Scalar R := {|
  lit := IZR;
  m_pi := m;
  add := Rplus;
  sub := Rminus;
  mul := Rmult;
  div := Rdiv;
  gtb := fun x y => if Rgt_dec x y then true else false
|}.

(** Exact arithmetic on the constants of the compiled program. *)
Definition ProgramScalar : Scalar R := ExactScalar M_PI_value.

(* ================================================================== *)
(** ** A state monad with exceptions *)

(** What a piece of the worker can end in: a normal return, a C++ exception
    in flight, or the dereference of a null [sptr] (which no [catch] sees). *)
Inductive Result (A : Type) : Type :=
| Ok (a : A)
| Thrown
| Fault.
Arguments Thrown {A}.
Arguments Fault {A}.

Definition M (S A : Type) : Type := S -> Result A * S.

Definition ret {S A} (a : A) : M S A := fun s => (Ok a, s).

Definition bind {S A B} (m : M S A) (k : A -> M S B) : M S B :=
  fun s =>
    match m s with
    | (Ok a, s') => k a s'
    | (Thrown, s') => (Thrown, s')
    | (Fault, s') => (Fault, s')
    end.

Definition gets {S A} (f : S -> A) : M S A := fun s => (Ok (f s), s).

Definition modify {S} (f : S -> S) : M S unit := fun s => (Ok tt, f s).

(** [try { body } catch (...) { handler }]. *)
Definition try_catch {S A} (body handler : M S A) : M S A :=
  fun s =>
    match body s with
    | (Thrown, s') => handler s'
    | r => r
    end.

Declare Scope worker_scope.
Delimit Scope worker_scope with worker.
Notation "x <- m ;; k" := (bind m (fun x => k))
  (at level 61, m at next level, right associativity) : worker_scope.
Notation "m ;; k" := (bind m (fun _ => k))
  (at level 61, right associativity) : worker_scope.

(* ================================================================== *)
(** ** The worker *)

Section Worker.

Context {T : Type} {SC : Scalar T} {TR : Trig T}.

(** One [std::complex<float>]: (in-phase, quadrature). *)
Definition Sample : Type := (T * T)%type.

(** *** Waveform synthesis (lines 79-95) *)

Definition buff_size : nat := 2048.
Definition current_freq : T := lit 10000.
Definition sample_rate : T := lit 1000000.

(** [2.0 * M_PI * current_freq / sample_rate] *)
Definition phase_increment : T :=
  div (mul (mul (lit 2) m_pi) current_freq) sample_rate.

(** [phase += increment; if (phase > 2 * M_PI) phase -= 2 * M_PI;] *)
Definition advance_phase (increment phase : T) : T :=
  let phase := add phase increment in
  if gtb phase (mul (lit 2) m_pi) then sub phase (mul (lit 2) m_pi)
  else phase.

(** [(x > 0) ? 1.0 : -1.0] *)
Definition square_level (x : T) : T :=
  if gtb x (lit 0) then lit 1 else lit (-1).

(** The body of the [for] loop up to the store into [buff[i]]. *)
Definition gen_sample (type : Z) (amp phase : T) : Sample :=
  let '(val_i, val_q) :=
    if (type =? 0)%Z then (cos_ phase, sin_ phase)
    else (square_level (cos_ phase), square_level (sin_ phase)) in
  (narrow (mul val_i amp), narrow (mul val_q amp)).

(** [buff[i] = x] for [i < buff.size()]; the loop never leaves that range. *)
Fixpoint store {A} (v : list A) (i : nat) (x : A) : list A :=
  match v, i with
  | [], _ => []
  | _ :: t, O => x :: t
  | h :: t, S j => h :: store t j x
  end.

(** [for (; i < buff_size; i++) { ... }] with [todo = buff_size - i]. *)
Fixpoint fill_from (todo i : nat) (type : Z) (amp increment : T)
    (buff : list Sample) (phase : T) : list Sample * T :=
  match todo with
  | O => (buff, phase)
  | S k =>
      fill_from k (S i) type amp increment
        (store buff i (gen_sample type amp phase))
        (advance_phase increment phase)
  end.

Definition synthesize (type : Z) (amp increment : T)
    (buff : list Sample) (phase : T) : list Sample * T :=
  fill_from buff_size 0 type amp increment buff phase.

(** The phase accumulator after [n] samples. *)
Fixpoint phase_after (n : nat) (increment phase : T) : T :=
  match n with
  | O => phase
  | S k => phase_after k increment (advance_phase increment phase)
  end.

(** *** Registers, driver, trace *)

(** The atomics of [RadioWorker] that the GUI writes. *)
Record Registers : Type := {
  frequency : T;
  gain : T;
  amplitude : T;
  waveform_type : Z
}.

(** What the worker observes of its surroundings in one pass of the
    [while (running)] loop: the register values its loads return and the
    answer of [data_mutex.tryLock()]. *)
Record Cycle : Type := {
  regs : Registers;
  try_lock : bool
}.

(** The surroundings of one execution of [run]: the registers as loaded
    during the connection attempt, and one [Cycle] for each time [running]
    was read as [true]. *)
Record Env : Type := {
  at_connect : Registers;
  cycles : list Cycle
}.

(** The UHD driver: which calls return and which throw.  [send_ok k] is the
    fate of the call to [send] made after [k] earlier ones. *)
Record Driver : Type := {
  make_ok : string -> bool;
  set_tx_rate_ok : T -> bool;
  set_tx_freq_ok : T -> bool;
  set_tx_gain_ok : T -> bool;
  get_tx_stream_ok : bool;
  send_ok : nat -> bool
}.

(** [uhd::tx_metadata_t], the two fields the worker touches. *)
Record TxMetadata : Type := {
  start_of_burst : bool;
  end_of_burst : bool
}.

(** Calls that returned, in order. *)
Inductive Event : Type :=
| EvMake (args : string)
| EvSetTxRate (rate : T)
| EvSetTxFreq (freq : T)
| EvSetTxGain (g : T)
| EvGetTxStream
| EvSend (payload : list Sample) (nsamps : nat) (md : TxMetadata)
| EvSleep (usecs : nat).

(** The members of [RadioWorker] that outlive a [run]. *)
Record Worker : Type := {
  w_hardware_connected : bool;
  w_shared_buffer : list Sample;
  device_args : string
}.

(** Members and locals during [run]; [usrp] and [tx_stream] record whether
    the pointer is non-null. *)
Record RunState : Type := {
  hardware_connected : bool;
  shared_buffer : list Sample;
  usrp : bool;
  tx_stream : bool;
  md : TxMetadata;
  buff : list Sample;
  phase : T;
  sends : nat;
  trace : list Event
}.

Definition set_hardware_connected (b : bool) (s : RunState) : RunState :=
  {| hardware_connected := b; shared_buffer := shared_buffer s;
     usrp := usrp s; tx_stream := tx_stream s; md := md s; buff := buff s;
     phase := phase s; sends := sends s; trace := trace s |}.

Definition set_shared_buffer (v : list Sample) (s : RunState) : RunState :=
  {| hardware_connected := hardware_connected s; shared_buffer := v;
     usrp := usrp s; tx_stream := tx_stream s; md := md s; buff := buff s;
     phase := phase s; sends := sends s; trace := trace s |}.

Definition set_usrp (b : bool) (s : RunState) : RunState :=
  {| hardware_connected := hardware_connected s;
     shared_buffer := shared_buffer s;
     usrp := b; tx_stream := tx_stream s; md := md s; buff := buff s;
     phase := phase s; sends := sends s; trace := trace s |}.

Definition set_tx_stream (b : bool) (s : RunState) : RunState :=
  {| hardware_connected := hardware_connected s;
     shared_buffer := shared_buffer s;
     usrp := usrp s; tx_stream := b; md := md s; buff := buff s;
     phase := phase s; sends := sends s; trace := trace s |}.

Definition set_md (m : TxMetadata) (s : RunState) : RunState :=
  {| hardware_connected := hardware_connected s;
     shared_buffer := shared_buffer s;
     usrp := usrp s; tx_stream := tx_stream s; md := m; buff := buff s;
     phase := phase s; sends := sends s; trace := trace s |}.

Definition set_synth (bp : list Sample * T) (s : RunState) : RunState :=
  {| hardware_connected := hardware_connected s;
     shared_buffer := shared_buffer s;
     usrp := usrp s; tx_stream := tx_stream s; md := md s; buff := fst bp;
     phase := snd bp; sends := sends s; trace := trace s |}.

Definition log (ev : Event) (s : RunState) : RunState :=
  {| hardware_connected := hardware_connected s;
     shared_buffer := shared_buffer s;
     usrp := usrp s; tx_stream := tx_stream s; md := md s; buff := buff s;
     phase := phase s; sends := sends s; trace := trace s ++ [ev] |}.

Definition count_send (s : RunState) : RunState :=
  {| hardware_connected := hardware_connected s;
     shared_buffer := shared_buffer s;
     usrp := usrp s; tx_stream := tx_stream s; md := md s; buff := buff s;
     phase := phase s; sends := S (sends s); trace := trace s |}.

Local Open Scope worker_scope.

Definition W : Type -> Type := M RunState.

(** A driver call: it returns (and is logged) or it throws. *)
Definition driver_call (ok : bool) (ev : Event) : W unit :=
  fun s => if ok then (Ok tt, log ev s) else (Thrown, s).

(** [p->...] on a [sptr]. *)
Definition deref (non_null : bool) : W unit :=
  fun s => if non_null then (Ok tt, s) else (Fault, s).

Definition isEmpty (s : string) : bool :=
  match s with
  | EmptyString => true
  | String _ _ => false
  end.

(** *** The connection attempt (lines 53-69) *)

Definition connect (d : Driver) (args : string) (r : Registers) : W unit :=
  if isEmpty args then ret tt
  else
    driver_call (make_ok d args) (EvMake args) ;;
    modify (set_usrp true) ;;
    driver_call (set_tx_rate_ok d (lit 1000000)) (EvSetTxRate (lit 1000000)) ;;
    driver_call (set_tx_freq_ok d (frequency r)) (EvSetTxFreq (frequency r)) ;;
    driver_call (set_tx_gain_ok d (gain r)) (EvSetTxGain (gain r)) ;;
    driver_call (get_tx_stream_ok d) EvGetTxStream ;;
    modify (set_tx_stream true) ;;
    modify (fun s => set_md {| start_of_burst := true;
                               end_of_burst := end_of_burst (md s) |} s) ;;
    modify (fun s => set_md {| start_of_burst := start_of_burst (md s);
                               end_of_burst := false |} s) ;;
    modify (set_hardware_connected true).

Definition connection_attempt (d : Driver) (args : string) (r : Registers)
  : W unit :=
  try_catch (connect d args r) (modify (set_hardware_connected false)).

(** *** One pass of the loop (lines 79-107) *)

(** [tx_stream->send(data, n, md)] *)
Definition send (d : Driver) (payload : list Sample) (n : nat) : W unit :=
  non_null <- gets tx_stream ;;
  deref non_null ;;
  k <- gets sends ;;
  m <- gets md ;;
  driver_call (send_ok d k) (EvSend payload n m) ;;
  modify count_send.

Definition usleep (usecs : nat) : W unit := modify (log (EvSleep usecs)).

Definition cycle (d : Driver) (c : Cycle) : W unit :=
  let increment := phase_increment in
  let amp := amplitude (regs c) in
  let type := waveform_type (regs c) in
  modify (fun s => set_synth (synthesize type amp increment (buff s) (phase s)) s) ;;
  hc <- gets hardware_connected ;;
  (if hc then
     b <- gets buff ;;
     send d b (List.length b) ;;
     modify (fun s => set_md {| start_of_burst := false;
                                end_of_burst := end_of_burst (md s) |} s)
   else usleep 2000) ;;
  if try_lock c then modify (fun s => set_shared_buffer (buff s) s)
  else ret tt.

(** [while (running) { ... }], one [Cycle] per pass. *)
Fixpoint loop (d : Driver) (cs : list Cycle) : W unit :=
  match cs with
  | [] => ret tt
  | c :: rest => cycle d c ;; loop d rest
  end.

(** Lines 110-113. *)
Definition end_burst (d : Driver) : W unit :=
  hc <- gets hardware_connected ;;
  if hc then
    modify (fun s => set_md {| start_of_burst := start_of_burst (md s);
                               end_of_burst := true |} s) ;;
    send d [] 0
  else ret tt.

Definition run_body (d : Driver) (e : Env) (args : string) : W unit :=
  connection_attempt d args (at_connect e) ;;
  loop d (cycles e) ;;
  end_burst d.

(** The state in which [run] starts: the members as the previous run left
    them, the locals as their declarations initialise them. *)
Definition enter (w : Worker) : RunState :=
  {| hardware_connected := w_hardware_connected w;
     shared_buffer := w_shared_buffer w;
     usrp := false;
     tx_stream := false;
     md := {| start_of_burst := false; end_of_burst := false |};
     buff := repeat (lit 0, lit 0) buff_size;
     phase := lit 0;
     sends := 0;
     trace := [] |}.

(** [RadioWorker::run]. *)
Definition run (d : Driver) (e : Env) (w : Worker) : Result unit * RunState :=
  run_body d e (device_args w) (enter w).

(** A newly constructed [RadioWorker] pointed at [args]. *)
Definition fresh_worker (args : string) : Worker :=
  {| w_hardware_connected := false; w_shared_buffer := []; device_args := args |}.

(** *** Observations on a trace *)

Definition is_sleep (ev : Event) : bool :=
  match ev with EvSleep _ => true | _ => false end.

Definition is_config (ev : Event) : bool :=
  match ev with
  | EvSetTxRate _ | EvSetTxFreq _ | EvSetTxGain _ => true
  | _ => false
  end.

(** Some step of the connection attempt throws. *)
Definition connect_fails (d : Driver) (args : string) (r : Registers) : bool :=
  negb (isEmpty args) &&
  negb (make_ok d args && set_tx_rate_ok d (lit 1000000)
        && set_tx_freq_ok d (frequency r) && set_tx_gain_ok d (gain r)
        && get_tx_stream_ok d).

(** Every step of the connection attempt returns. *)
Definition connect_succeeds (d : Driver) (args : string) (r : Registers) : bool :=
  negb (isEmpty args) &&
  (make_ok d args && set_tx_rate_ok d (lit 1000000)
   && set_tx_freq_ok d (frequency r) && set_tx_gain_ok d (gain r)
   && get_tx_stream_ok d).

(** *** The passes of the loop, written out

    The state a pass leaves behind when it does not send ([after_sleep]) and
    when its send returns ([after_send]). *)

Definition synthesized (c : Cycle) (s : RunState) : RunState :=
  set_synth (synthesize (waveform_type (regs c)) (amplitude (regs c))
               phase_increment (buff s) (phase s)) s.

Definition published (c : Cycle) (s : RunState) : RunState :=
  if try_lock c then set_shared_buffer (buff s) s else s.

Definition after_sleep (c : Cycle) (s : RunState) : RunState :=
  published c (log (EvSleep 2000) (synthesized c s)).

Definition after_send (c : Cycle) (s : RunState) : RunState :=
  let s1 := synthesized c s in
  published c
    (set_md {| start_of_burst := false; end_of_burst := end_of_burst (md s1) |}
       (count_send (log (EvSend (buff s1) (List.length (buff s1)) (md s1)) s1))).

(** The configuration calls of a connection attempt that goes through. *)
Definition full_configuration (r : Registers) : list Event :=
  [EvSetTxRate (lit 1000000); EvSetTxFreq (frequency r);
   EvSetTxGain (gain r)].

(** The calls of the connection attempt that return, in order. *)
Definition connect_events (d : Driver) (args : string) (r : Registers)
  : list Event :=
  if isEmpty args then []
  else if negb (make_ok d args) then []
  else EvMake args ::
    if negb (set_tx_rate_ok d (lit 1000000)) then []
    else EvSetTxRate (lit 1000000) ::
      if negb (set_tx_freq_ok d (frequency r)) then []
      else EvSetTxFreq (frequency r) ::
        if negb (set_tx_gain_ok d (gain r)) then []
        else EvSetTxGain (gain r) ::
          if get_tx_stream_ok d then [EvGetTxStream] else [].

(** The state the connection attempt leaves behind. *)
Definition after_connect (d : Driver) (args : string) (r : Registers)
    (s : RunState) : RunState :=
  {| hardware_connected :=
       if isEmpty args then hardware_connected s
       else connect_succeeds d args r;
     shared_buffer := shared_buffer s;
     usrp := if isEmpty args then usrp s else make_ok d args || usrp s;
     tx_stream := connect_succeeds d args r || tx_stream s;
     md := if connect_succeeds d args r
           then {| start_of_burst := true; end_of_burst := false |}
           else md s;
     buff := buff s;
     phase := phase s;
     sends := sends s;
     trace := trace s ++ connect_events d args r |}.

(** The state [end_burst] leaves behind when its send returns. *)
Definition after_end_burst (s : RunState) : RunState :=
  let m := {| start_of_burst := start_of_burst (md s); end_of_burst := true |} in
  count_send (log (EvSend [] 0 m) (set_md m s)).

(** The loop when no pass sends. *)
Definition sleep_through (cs : list Cycle) (s : RunState) : RunState :=
  fold_left (fun s c => after_sleep c s) cs s.

(** The loop when every pass sends. *)
Definition send_through (cs : list Cycle) (s : RunState) : RunState :=
  fold_left (fun s c => after_send c s) cs s.

(** The samples of one buffer, by index. *)
Definition samples_from (type : Z) (amp increment phase : T) (n : nat)
  : list Sample :=
  map (fun i => gen_sample type amp (phase_after i increment phase)) (seq 0 n).

(** Length and burst flags of a send. *)
Definition send_frame (ev : Event) : option (nat * bool * bool) :=
  match ev with
  | EvSend _ n m => Some (n, start_of_burst m, end_of_burst m)
  | _ => None
  end.

Fixpoint frames (tr : list Event) : list (nat * bool * bool) :=
  match tr with
  | [] => []
  | ev :: rest =>
      match send_frame ev with
      | Some f => f :: frames rest
      | None => frames rest
      end
  end.

(** The frames of a streaming session of [n] passes: [n] full buffers, the
    first one opening the burst, then one empty frame closing it. *)
Definition burst_frames (n : nat) : list (nat * bool * bool) :=
  map (fun k => (buff_size, Nat.eqb k 0, false)) (seq 0 n)
  ++ [(0, Nat.eqb n 0, true)].

(** Two passes that differ at most in the frequency and gain registers. *)
Definition same_synthesis_inputs (c c' : Cycle) : Prop :=
  amplitude (regs c) = amplitude (regs c') /\
  waveform_type (regs c) = waveform_type (regs c') /\
  try_lock c = try_lock c'.

End Worker.

Arguments Sample T : clear implicits.
Arguments Registers T : clear implicits.
Arguments Cycle T : clear implicits.
Arguments Env T : clear implicits.
Arguments Driver T : clear implicits.
Arguments Event T : clear implicits.
Arguments Worker T : clear implicits.
Arguments RunState T : clear implicits.

(* ================================================================== *)
(** ** Concrete sessions

    Inputs on which the properties below are exercised, over the reals. *)

(** The registers as the member initialisers of [RadioWorker] set them,
    with the amplitude and waveform the GUI last wrote. *)
Definition registers_with (amp : R) (type : Z) : Registers R :=
  {| frequency := 915000000%R; gain := 40%R; amplitude := amp;
     waveform_type := type |}.

(** A pass during which the reader does not hold [data_mutex]. *)
Definition quiet_pass (amp : R) (type : Z) : Cycle R :=
  {| regs := registers_with amp type; try_lock := true |}.

Definition session (amp : R) (type : Z) (passes : nat) : Env R :=
  {| at_connect := registers_with amp type;
     cycles := repeat (quiet_pass amp type) passes |}.

(** The session [session amp type passes], except that the GUI has retuned
    frequency and gain by the time the loop runs. *)
Definition retuned_session (amp : R) (type : Z) (passes : nat) : Env R :=
  {| at_connect := registers_with amp type;
     cycles :=
       repeat {| regs := {| frequency := 2400000000%R; gain := 10%R;
                            amplitude := amp; waveform_type := type |};
                 try_lock := true |} passes |}.

(** A driver whose calls all return. *)
Definition healthy_driver : Driver R :=
  {| make_ok := fun _ => true;
     set_tx_rate_ok := fun _ => true;
     set_tx_freq_ok := fun _ => true;
     set_tx_gain_ok := fun _ => true;
     get_tx_stream_ok := true;
     send_ok := fun _ => true |}.

(** No device answers to the identifier: [multi_usrp::make] throws. *)
Definition absent_device : Driver R :=
  {| make_ok := fun _ => false;
     set_tx_rate_ok := fun _ => true;
     set_tx_freq_ok := fun _ => true;
     set_tx_gain_ok := fun _ => true;
     get_tx_stream_ok := true;
     send_ok := fun _ => true |}.

(** The device is pulled after [k] sends: every later [send] throws. *)
Definition unplugged_after (k : nat) : Driver R :=
  {| make_ok := fun _ => true;
     set_tx_rate_ok := fun _ => true;
     set_tx_freq_ok := fun _ => true;
     set_tx_gain_ok := fun _ => true;
     get_tx_stream_ok := true;
     send_ok := fun j => Nat.ltb j k |}.

Definition b200 : string := "type=b200".

(** The data of the combo box entry "Simulation Mode": no identifier. *)
Definition simulation_mode : string := EmptyString.

(** A frame opens, respectively closes, a burst. *)
Definition opens_burst (f : nat * bool * bool) : bool := snd (fst f).
Definition closes_burst (f : nat * bool * bool) : bool := snd f.

(* ================================================================== *)
(** ** The snapshot channel: worker and reader side by side

    The worker publishes with [tryLock] (lines 104-107), the GUI thread
    reads in [updatePlot] with [lock] (lines 358-363).  Both are cut into
    steps: taking or testing the mutex is one step, every element copied by
    a vector assignment is one step, releasing the mutex is one step.  A
    schedule says which thread moves next; a thread that cannot move (the
    reader waiting in [lock]) leaves the state as it is. *)

Module SnapshotChannel.

Section Channel.

Variable A : Type.

Inductive Thread : Type := WorkerThread | GuiThread.

(** Where the worker stands in [if (tryLock()) { shared_buffer = buff;
    unlock(); }]. *)
Inductive WorkerPc : Type :=
| AtTryLock
| Assigning (i : nat)
| AtUnlock.

(** Where [updatePlot] stands in [lock(); if (!shared_buffer.empty())
    local_data = shared_buffer; unlock();]. *)
Inductive ReaderPc : Type :=
| AtLock
| Copying (j : nat)
| ReaderAtUnlock
| Returned.

(** [to_publish] holds the [buff] of the current pass and of the passes to
    come.  [published] is a history variable, written and never read: the
    buffers whose assignment to [shared_buffer] has been completed, latest
    first. *)
Record Channel : Type := {
  data_mutex : option Thread;
  shared_buffer : list A;
  worker_pc : WorkerPc;
  to_publish : list (list A);
  reader_pc : ReaderPc;
  local_data : list A;
  published : list (list A)
}.

(** Element [i] of a vector assignment: overwrite, or append at the end. *)
Definition assign_at (v : list A) (i : nat) (x : A) : list A :=
  firstn i v ++ x :: skipn (S i) v.

Definition worker_step (s : Channel) : option Channel :=
  match to_publish s with
  | [] => None
  | b :: rest =>
      match worker_pc s with
      | AtTryLock =>
          match data_mutex s with
          | None =>
              Some {| data_mutex := Some WorkerThread;
                      shared_buffer := shared_buffer s;
                      worker_pc := Assigning 0;
                      to_publish := to_publish s;
                      reader_pc := reader_pc s;
                      local_data := local_data s;
                      published := published s |}
          | Some _ =>
              Some {| data_mutex := data_mutex s;
                      shared_buffer := shared_buffer s;
                      worker_pc := AtTryLock;
                      to_publish := rest;
                      reader_pc := reader_pc s;
                      local_data := local_data s;
                      published := published s |}
          end
      | Assigning i =>
          match nth_error b i with
          | Some x =>
              Some {| data_mutex := data_mutex s;
                      shared_buffer := assign_at (shared_buffer s) i x;
                      worker_pc := Assigning (S i);
                      to_publish := to_publish s;
                      reader_pc := reader_pc s;
                      local_data := local_data s;
                      published := published s |}
          | None =>
              Some {| data_mutex := data_mutex s;
                      shared_buffer := firstn (List.length b) (shared_buffer s);
                      worker_pc := AtUnlock;
                      to_publish := to_publish s;
                      reader_pc := reader_pc s;
                      local_data := local_data s;
                      published := published s |}
          end
      | AtUnlock =>
          Some {| data_mutex := None;
                  shared_buffer := shared_buffer s;
                  worker_pc := AtTryLock;
                  to_publish := rest;
                  reader_pc := reader_pc s;
                  local_data := local_data s;
                  published := b :: published s |}
      end
  end.

Definition reader_step (s : Channel) : option Channel :=
  match reader_pc s with
  | AtLock =>
      match data_mutex s with
      | None =>
          Some {| data_mutex := Some GuiThread;
                  shared_buffer := shared_buffer s;
                  worker_pc := worker_pc s;
                  to_publish := to_publish s;
                  reader_pc := Copying 0;
                  local_data := [];
                  published := published s |}
      | Some _ => None
      end
  | Copying j =>
      match nth_error (shared_buffer s) j with
      | Some x =>
          Some {| data_mutex := data_mutex s;
                  shared_buffer := shared_buffer s;
                  worker_pc := worker_pc s;
                  to_publish := to_publish s;
                  reader_pc := Copying (S j);
                  local_data := local_data s ++ [x];
                  published := published s |}
      | None =>
          Some {| data_mutex := data_mutex s;
                  shared_buffer := shared_buffer s;
                  worker_pc := worker_pc s;
                  to_publish := to_publish s;
                  reader_pc := ReaderAtUnlock;
                  local_data := local_data s;
                  published := published s |}
      end
  | ReaderAtUnlock =>
      Some {| data_mutex := None;
              shared_buffer := shared_buffer s;
              worker_pc := worker_pc s;
              to_publish := to_publish s;
              reader_pc := Returned;
              local_data := local_data s;
              published := published s |}
  | Returned =>
      Some {| data_mutex := data_mutex s;
              shared_buffer := shared_buffer s;
              worker_pc := worker_pc s;
              to_publish := to_publish s;
              reader_pc := AtLock;
              local_data := local_data s;
              published := published s |}
  end.

Definition step (t : Thread) (s : Channel) : Channel :=
  let moved :=
    match t with
    | WorkerThread => worker_step s
    | GuiThread => reader_step s
    end in
  match moved with
  | Some s' => s'
  | None => s
  end.

Fixpoint exec (schedule : list Thread) (s : Channel) : Channel :=
  match schedule with
  | [] => s
  | t :: rest => exec rest (step t s)
  end.

(** Both threads at their first line, the mutex free. *)
Definition init (slot0 : list A) (bufs : list (list A)) : Channel :=
  {| data_mutex := None;
     shared_buffer := slot0;
     worker_pc := AtTryLock;
     to_publish := bufs;
     reader_pc := AtLock;
     local_data := [];
     published := [] |}.

(** The contents of the slot between two publications: the latest buffer
    published, or the initial contents when there is none. *)
Definition latest (slot0 : list A) (s : Channel) : list A :=
  hd slot0 (published s).

(** What holds in every state the two threads can reach from [init]. *)
Definition invariant (slot0 : list A) (s : Channel) : Prop :=
  match worker_pc s with
  | AtTryLock =>
      data_mutex s <> Some WorkerThread /\ shared_buffer s = latest slot0 s
  | Assigning i =>
      data_mutex s = Some WorkerThread /\
      exists b rest,
        to_publish s = b :: rest /\ i <= List.length b /\
        firstn i (shared_buffer s) = firstn i b
  | AtUnlock =>
      data_mutex s = Some WorkerThread /\
      exists b rest, to_publish s = b :: rest /\ shared_buffer s = b
  end /\
  match reader_pc s with
  | AtLock => data_mutex s <> Some GuiThread
  | Copying j =>
      data_mutex s = Some GuiThread /\
      local_data s = firstn j (shared_buffer s)
  | ReaderAtUnlock =>
      data_mutex s = Some GuiThread /\ local_data s = shared_buffer s
  | Returned =>
      data_mutex s <> Some GuiThread /\
      In (local_data s) (published s ++ [slot0])
  end.

(** The buffers still to publish are the tail of those the worker makes,
    and only buffers the worker made are recorded as published. *)
Definition history_sound (bufs : list (list A)) (s : Channel) : Prop :=
  exists done,
    bufs = done ++ to_publish s /\ incl (published s) done.

End Channel.

End SnapshotChannel.

(* ================================================================== *)
(** ** Sessions: the worker between [toggleConnection] and the next one

    [toggleConnection] (lines 325-353) starts the worker on the data of the
    selected combo entry and, pressed again, clears [running] and waits for
    [run] to return.  The [RadioWorker] object is the same from one session
    to the next: its members keep what the last [run] left in them. *)

Section Sessions.

Context {T : Type} {SC : Scalar T} {TR : Trig T}.

(** [worker->device_args = args;] (line 335). *)
Definition select (args : string) (w : Worker T) : Worker T :=
  {| w_hardware_connected := w_hardware_connected w;
     w_shared_buffer := w_shared_buffer w;
     device_args := args |}.

(** The members once [run] has returned and [wait()] with it. *)
Definition leave (s : RunState T) (w : Worker T) : Worker T :=
  {| w_hardware_connected := hardware_connected s;
     w_shared_buffer := shared_buffer s;
     device_args := device_args w |}.

(** One session: start on [args], make the passes of [e], stop. *)
Definition toggled_session (d : Driver T) (e : Env T) (args : string)
    (w : Worker T) : Result unit * Worker T :=
  let final := run d e (select args w) in
  (fst final, leave (snd final) (select args w)).

(** The buffer a pass synthesizes when it starts at phase [ph]. *)
Definition pass_buffer (c : Cycle T) (ph : T) : list (Sample T) :=
  samples_from (waveform_type (regs c)) (amplitude (regs c)) phase_increment
    ph buff_size.

(** The frames of [m] passes on hardware: full buffers, the first one
    opening the burst. *)
Definition data_frames (m : nat) : list (nat * bool * bool) :=
  map (fun k => (buff_size, Nat.eqb k 0, false)) (seq 0 m).

(** The sample blocks handed to [send], in order. *)
Fixpoint payloads (tr : list (Event T)) : list (list (Sample T)) :=
  match tr with
  | [] => []
  | EvSend p _ _ :: rest => p :: payloads rest
  | _ :: rest => payloads rest
  end.

End Sessions.

(* ================================================================== *)
(** ** The GUI side: device list and plot *)

Module Gui.

(** *** [refreshDevices] (lines 315-323) *)

(** [uhd::device_addr_t]: keys and values in order. *)
Definition device_addr : Type := list (string * string).

(** Text and user data of the entries of [deviceCombo]. *)
Definition Combo : Type := list (string * string).

Fixpoint lookup (dev : device_addr) (key : string) : option string :=
  match dev with
  | [] => None
  | (k, v) :: rest => if String.eqb k key then Some v else lookup rest key
  end.

(** [dev.get(key)]: the value, or [uhd::key_error]. *)
Definition get (dev : device_addr) (key : string) : M Combo string :=
  fun combo =>
    match lookup dev key with
    | Some v => (Ok v, combo)
    | None => (Thrown, combo)
    end.

Definition addItem (text data : string) : M Combo unit :=
  modify (fun combo => combo ++ [(text, data)]).

(** [deviceCombo->currentData().toString()]: the data of the entry, empty
    for an entry added without data or when there is no such entry. *)
Definition currentData (combo : Combo) (index : nat) : string :=
  match nth_error combo index with
  | Some (_, data) => data
  | None => EmptyString
  end.

(** The two keys [refreshDevices] reads are present. *)
Definition has_keys (dev : device_addr) : Prop :=
  exists type serial,
    lookup dev "type"%string = Some type /\
    lookup dev "serial"%string = Some serial.

Section Devices.

(** [dev.to_string()], the driver's rendering of an address. *)
Variable to_string : device_addr -> string.

Local Open Scope worker_scope.
Local Open Scope string_scope.

(** The [for] loop over the devices found. *)
Fixpoint add_devices (devices : list device_addr) : M Combo unit :=
  match devices with
  | [] => ret tt
  | dev :: rest =>
      type <- get dev "type" ;;
      serial <- get dev "serial" ;;
      addItem (type ++ " (" ++ serial ++ ")") (to_string dev) ;;
      add_devices rest
  end.

(** [devices] is what [uhd::device::find] returned. *)
Definition refreshDevices (devices : list device_addr) : M Combo unit :=
  modify (fun _ => []) ;;
  addItem "Simulation Mode" EmptyString ;;
  add_devices devices.

(** The entry [refreshDevices] makes for one device. *)
Definition entry (dev : device_addr) : option (string * string) :=
  match lookup dev "type", lookup dev "serial" with
  | Some type, Some serial => Some (type ++ " (" ++ serial ++ ")", to_string dev)
  | _, _ => None
  end.

(** The devices before the first one that lacks a key. *)
Fixpoint listed (devices : list device_addr) : list (string * string) :=
  match devices with
  | [] => []
  | dev :: rest =>
      match entry dev with
      | Some item => item :: listed rest
      | None => []
      end
  end.

Definition well_formed (dev : device_addr) : bool :=
  match entry dev with Some _ => true | None => false end.

End Devices.

(** *** [updatePlot] (lines 355-374) *)

Section Plot.

Context {T : Type}.

(** What [updatePlot] touches of [MainWindow]: the pause flag and the points
    of the two series. *)
Record Plot : Type := {
  isPaused : bool;
  seriesI : list (Z * T);
  seriesQ : list (Z * T)
}.

(** [(int)n] for a [size_t]. *)
Definition to_int (n : nat) : Z :=
  let m := (Z.of_nat n mod 4294967296)%Z in
  if (m <? 2147483648)%Z then m else (m - 4294967296)%Z.

(** [for (int i = ...; i < limit; ++i)] with [todo] passes left; [None] is
    a read of [local_data[i]] past the end. *)
Fixpoint plot_loop (todo : nat) (i : Z) (local_data : list (Sample T))
    (pI pQ : list (Z * T)) : option (list (Z * T) * list (Z * T)) :=
  match todo with
  | O => Some (pI, pQ)
  | S k =>
      match nth_error local_data (Z.to_nat i) with
      | None => None
      | Some x =>
          plot_loop k (i + 1)%Z local_data
            (pI ++ [(i, fst x)]) (pQ ++ [(i, snd x)])
      end
  end.

(** [shared] is [worker->shared_buffer] as read under the mutex. *)
Definition updatePlot (g : Plot) (shared : list (Sample T)) : option Plot :=
  if isPaused g then Some g
  else
    let local_data := match shared with [] => [] | _ :: _ => shared end in
    match local_data with
    | [] => Some g
    | _ :: _ =>
        let limit := Z.min (to_int (List.length local_data)) 500 in
        match plot_loop (Z.to_nat limit) 0 local_data [] [] with
        | Some (pI, pQ) =>
            Some {| isPaused := isPaused g; seriesI := pI; seriesQ := pQ |}
        | None => None
        end
    end.

(** The first [m] values of one part of the samples, numbered from 0. *)
Definition numbered (part : Sample T -> T) (m : nat)
    (data : list (Sample T)) : list (Z * T) :=
  combine (map Z.of_nat (seq 0 m)) (map part (firstn m data)).

End Plot.

Arguments Plot T : clear implicits.

End Gui.

(* ================================================================== *)
(** ** The snapshot channel: who is inside, and what was published when *)

Module ChannelViews.

Import SnapshotChannel.

Section Views.

Context {A : Type}.

(** The worker is between its [tryLock] and its [unlock]. *)
Definition worker_inside (s : Channel A) : bool :=
  match worker_pc s with
  | AtTryLock => false
  | Assigning _ | AtUnlock => true
  end.

(** The reader is between its [lock] and its [unlock]. *)
Definition reader_inside (s : Channel A) : bool :=
  match reader_pc s with
  | Copying _ | ReaderAtUnlock => true
  | AtLock | Returned => false
  end.

(** The worker's steps from [tryLock] to after [unlock] for a buffer. *)
Definition publish_steps (b : list A) : nat := List.length b + 3.

Definition all_publish_steps (bufs : list (list A)) : nat :=
  list_sum (map publish_steps bufs).

(** [l] is [l'] with some elements left out. *)
Inductive subsequence {X : Type} : list X -> list X -> Prop :=
| sub_nil : subsequence [] []
| sub_skip (x : X) (l l' : list X) :
    subsequence l l' -> subsequence l (x :: l')
| sub_keep (x : X) (l l' : list X) :
    subsequence l l' -> subsequence (x :: l) (x :: l').

(** The buffers published so far, oldest first, are among those the worker
    has been through, in the same order. *)
Definition history_ordered (bufs : list (list A)) (s : Channel A) : Prop :=
  exists done,
    bufs = done ++ to_publish s /\
    subsequence (rev (published s)) done.

End Views.

End ChannelViews.

(* ================================================================== *)
(** ** Properties of the synthesizer *)

Section SynthesizerFacts.

Context {T : Type} {SC : Scalar T} {TR : Trig T}.

Lemma store_length {A} (v : list A) (i : nat) (x : A) :
  List.length (store v i x) = List.length v.
Proof.
  revert i; induction v as [|h t IH]; intros [|j]; simpl; auto.
Qed.

Lemma store_app {A} (pre : list A) (old : A) (post : list A) (x : A) :
  store (pre ++ old :: post) (List.length pre) x = pre ++ x :: post.
Proof.
  induction pre as [|h t IH]; simpl; [reflexivity|].
  now rewrite IH.
Qed.

Lemma phase_after_add (n m : nat) (increment phase : T) :
  phase_after (n + m) increment phase
  = phase_after m increment (phase_after n increment phase).
Proof.
  revert phase; induction n as [|n IH]; intros phase; simpl; [reflexivity|].
  apply IH.
Qed.

Lemma phase_after_S (n : nat) (increment phase : T) :
  phase_after (S n) increment phase
  = advance_phase increment (phase_after n increment phase).
Proof.
  replace (S n) with (n + 1) by lia.
  now rewrite phase_after_add.
Qed.

Lemma samples_from_S (type : Z) (amp increment phase : T) (n : nat) :
  samples_from type amp increment phase (S n)
  = gen_sample type amp phase
    :: samples_from type amp increment (advance_phase increment phase) n.
Proof.
  unfold samples_from.
  rewrite <- cons_seq. simpl. f_equal.
  rewrite <- seq_shift, map_map. reflexivity.
Qed.

(** The loop writes the samples in order over the old contents. *)
Lemma fill_from_spec (todo : nat) (type : Z) (amp increment : T) :
  forall (pre old post : list (Sample T)) (phase : T),
    List.length old = todo ->
    fill_from todo (List.length pre) type amp increment
      (pre ++ old ++ post) phase
    = (pre ++ samples_from type amp increment phase todo ++ post,
       phase_after todo increment phase).
Proof.
  induction todo as [|k IH]; intros pre old post phase Hlen.
  - destruct old; [reflexivity | discriminate].
  - destruct old as [|o old']; [discriminate|].
    injection Hlen as Hlen.
    cbn [fill_from]. simpl app at 1.
    rewrite store_app.
    replace (pre ++ gen_sample type amp phase :: old' ++ post)
      with ((pre ++ [gen_sample type amp phase]) ++ old' ++ post)
      by (rewrite <- app_assoc; reflexivity).
    replace (S (List.length pre))
      with (List.length (pre ++ [gen_sample type amp phase]))
      by (rewrite length_app; simpl; lia).
    rewrite (IH _ old' post _ Hlen).
    rewrite samples_from_S, <- app_assoc. reflexivity.
Qed.

Lemma samples_from_length (type : Z) (amp increment phase : T) (n : nat) :
  List.length (samples_from type amp increment phase n) = n.
Proof. unfold samples_from. now rewrite length_map, length_seq. Qed.

Lemma samples_from_nth (type : Z) (amp increment phase : T) (n i : nat) :
  i < n ->
  nth_error (samples_from type amp increment phase n) i
  = Some (gen_sample type amp (phase_after i increment phase)).
Proof.
  intros Hi. unfold samples_from.
  rewrite nth_error_map, nth_error_seq.
  apply Nat.ltb_lt in Hi. now rewrite Hi.
Qed.

(** A buffer of length [n] filled by [n] passes of the loop. *)
Lemma fill_from_whole (n : nat) (type : Z) (amp increment : T)
    (buff : list (Sample T)) (phase : T) :
  List.length buff = n ->
  fill_from n 0 type amp increment buff phase
  = (samples_from type amp increment phase n, phase_after n increment phase).
Proof.
  intros Hlen.
  pose proof (fill_from_spec type amp increment [] buff [] phase Hlen) as H.
  simpl in H. now rewrite !app_nil_r in H.
Qed.

Lemma synthesize_spec (type : Z) (amp increment : T)
    (buff : list (Sample T)) (phase : T) :
  List.length buff = buff_size ->
  synthesize type amp increment buff phase
  = (samples_from type amp increment phase buff_size,
     phase_after buff_size increment phase).
Proof. apply fill_from_whole. Qed.

End SynthesizerFacts.

(* ================================================================== *)
(** ** Properties of the worker *)

Ltac unfold_monad :=
  unfold bind, ret, gets, modify, try_catch, driver_call, deref, usleep.

Ltac unfold_setters :=
  unfold set_hardware_connected, set_shared_buffer, set_usrp, set_tx_stream,
    set_md, set_synth, log, count_send.

Section WorkerFacts.

Context {T : Type} {SC : Scalar T} {TR : Trig T}.

Implicit Types (d : Driver T) (c : Cycle T) (s : RunState T)
  (e : Env T) (w : Worker T).

#[local] Arguments synthesize : simpl never.
#[local] Arguments synthesized : simpl never.
#[local] Arguments buff_size : simpl never.

(** *** One pass *)

Lemma cycle_sleeps d c s :
  hardware_connected s = false ->
  cycle d c s = (Ok tt, after_sleep c s).
Proof.
  intros Hhc. unfold cycle, after_sleep, published, synthesized.
  unfold_monad. cbn [hardware_connected set_synth]. rewrite Hhc.
  destruct (try_lock c); reflexivity.
Qed.

Lemma cycle_sends d c s :
  hardware_connected s = true -> tx_stream s = true ->
  send_ok d (sends s) = true ->
  cycle d c s = (Ok tt, after_send c s).
Proof.
  intros Hhc Hptr Hok. unfold cycle, after_send, published, synthesized, send.
  unfold_monad. cbn [hardware_connected set_synth]. rewrite Hhc.
  cbn [tx_stream set_synth]. rewrite Hptr.
  cbn [sends set_synth]. rewrite Hok.
  destruct (try_lock c); reflexivity.
Qed.

Lemma cycle_throws d c s :
  hardware_connected s = true -> tx_stream s = true ->
  send_ok d (sends s) = false ->
  cycle d c s = (Thrown, synthesized c s).
Proof.
  intros Hhc Hptr Hok. unfold cycle, synthesized, send.
  unfold_monad. cbn [hardware_connected set_synth]. rewrite Hhc.
  cbn [tx_stream set_synth]. rewrite Hptr.
  cbn [sends set_synth]. now rewrite Hok.
Qed.

Lemma cycle_faults d c s :
  hardware_connected s = true -> tx_stream s = false ->
  cycle d c s = (Fault, synthesized c s).
Proof.
  intros Hhc Hptr. unfold cycle, synthesized, send.
  unfold_monad. cbn [hardware_connected set_synth]. rewrite Hhc.
  cbn [tx_stream set_synth]. now rewrite Hptr.
Qed.

Lemma loop_cons d c cs s :
  loop d (c :: cs) s
  = match cycle d c s with
    | (Ok _, s') => loop d cs s'
    | (Thrown, s') => (Thrown, s')
    | (Fault, s') => (Fault, s')
    end.
Proof. reflexivity. Qed.

(** *** Fields that a pass leaves alone or changes in a known way *)

Lemma after_sleep_hardware_connected c s :
  hardware_connected (after_sleep c s) = hardware_connected s.
Proof. unfold after_sleep, published. now destruct (try_lock c). Qed.

Lemma after_sleep_trace c s :
  trace (after_sleep c s) = trace s ++ [EvSleep 2000].
Proof. unfold after_sleep, published. now destruct (try_lock c). Qed.

Lemma after_sleep_sends c s : sends (after_sleep c s) = sends s.
Proof. unfold after_sleep, published. now destruct (try_lock c). Qed.

Lemma after_sleep_buff c s :
  buff (after_sleep c s) = buff (synthesized c s).
Proof. unfold after_sleep, published. now destruct (try_lock c). Qed.

Lemma after_sleep_phase c s :
  phase (after_sleep c s) = phase (synthesized c s).
Proof. unfold after_sleep, published. now destruct (try_lock c). Qed.

Lemma after_sleep_shared_buffer c s :
  shared_buffer (after_sleep c s)
  = if try_lock c then buff (synthesized c s) else shared_buffer s.
Proof. unfold after_sleep, published. now destruct (try_lock c). Qed.

Lemma after_send_hardware_connected c s :
  hardware_connected (after_send c s) = hardware_connected s.
Proof. unfold after_send, published. now destruct (try_lock c). Qed.

Lemma after_send_tx_stream c s :
  tx_stream (after_send c s) = tx_stream s.
Proof. unfold after_send, published. now destruct (try_lock c). Qed.

Lemma after_send_sends c s : sends (after_send c s) = S (sends s).
Proof. unfold after_send, published. now destruct (try_lock c). Qed.

Lemma after_send_md c s :
  md (after_send c s)
  = {| start_of_burst := false; end_of_burst := end_of_burst (md s) |}.
Proof. unfold after_send, published. now destruct (try_lock c). Qed.

Lemma after_send_trace c s :
  trace (after_send c s)
  = trace s ++ [EvSend (buff (synthesized c s))
                  (List.length (buff (synthesized c s))) (md s)].
Proof. unfold after_send, published. now destruct (try_lock c). Qed.

Lemma after_send_buff c s :
  buff (after_send c s) = buff (synthesized c s).
Proof. unfold after_send, published. now destruct (try_lock c). Qed.

Lemma after_send_phase c s :
  phase (after_send c s) = phase (synthesized c s).
Proof. unfold after_send, published. now destruct (try_lock c). Qed.

Lemma synthesized_buff_length c s :
  List.length (buff s) = buff_size ->
  List.length (buff (synthesized c s)) = buff_size.
Proof.
  intros Hlen. unfold synthesized. cbn [buff set_synth].
  rewrite synthesize_spec by assumption. cbn [fst].
  apply samples_from_length.
Qed.

Lemma synthesized_buff c s :
  List.length (buff s) = buff_size ->
  buff (synthesized c s)
  = samples_from (waveform_type (regs c)) (amplitude (regs c))
      phase_increment (phase s) buff_size.
Proof.
  intros Hlen. unfold synthesized. cbn [buff set_synth].
  now rewrite synthesize_spec.
Qed.

Lemma synthesized_phase c s :
  List.length (buff s) = buff_size ->
  phase (synthesized c s) = phase_after buff_size phase_increment (phase s).
Proof.
  intros Hlen. unfold synthesized. cbn [phase set_synth].
  now rewrite synthesize_spec.
Qed.

Lemma synthesized_trace c s : trace (synthesized c s) = trace s.
Proof. reflexivity. Qed.

Lemma synthesized_hardware_connected c s :
  hardware_connected (synthesized c s) = hardware_connected s.
Proof. reflexivity. Qed.

(** *** The loop without hardware *)

Lemma loop_sleeps d cs : forall s,
  hardware_connected s = false ->
  loop d cs s = (Ok tt, sleep_through cs s).
Proof.
  induction cs as [|c cs IH]; intros s Hhc; [reflexivity|].
  rewrite loop_cons, cycle_sleeps by assumption.
  unfold sleep_through. cbn [fold_left]. apply IH.
  now rewrite after_sleep_hardware_connected.
Qed.

Lemma sleep_through_hardware_connected cs : forall s,
  hardware_connected (sleep_through cs s) = hardware_connected s.
Proof.
  induction cs as [|c cs IH]; intros s; [reflexivity|].
  unfold sleep_through in *. cbn [fold_left].
  now rewrite IH, after_sleep_hardware_connected.
Qed.

Lemma sleep_through_trace cs : forall s,
  trace (sleep_through cs s)
  = trace s ++ repeat (EvSleep 2000) (List.length cs).
Proof.
  induction cs as [|c cs IH]; intros s.
  - simpl. now rewrite app_nil_r.
  - unfold sleep_through in *. cbn [fold_left].
    rewrite IH, after_sleep_trace, <- app_assoc. reflexivity.
Qed.

Lemma sleep_through_buff_length cs : forall s,
  List.length (buff s) = buff_size ->
  List.length (buff (sleep_through cs s)) = buff_size.
Proof.
  induction cs as [|c cs IH]; intros s Hlen; [assumption|].
  unfold sleep_through in *. cbn [fold_left]. apply IH.
  rewrite after_sleep_buff. now apply synthesized_buff_length.
Qed.

Lemma sleep_through_phase cs : forall s,
  List.length (buff s) = buff_size ->
  phase (sleep_through cs s)
  = phase_after (List.length cs * buff_size) phase_increment (phase s).
Proof.
  induction cs as [|c cs IH]; intros s Hlen; [reflexivity|].
  unfold sleep_through in *. cbn [fold_left].
  rewrite IH
    by (rewrite after_sleep_buff; now apply synthesized_buff_length).
  rewrite after_sleep_phase, synthesized_phase by assumption.
  cbn [List.length Nat.mul]. now rewrite phase_after_add.
Qed.

Lemma sleep_through_app cs cs' s :
  sleep_through (cs ++ cs') s = sleep_through cs' (sleep_through cs s).
Proof. apply fold_left_app. Qed.

(** *** The connection attempt *)

(** Whatever the driver does, the attempt itself returns normally. *)
Lemma connection_attempt_spec d args (r : Registers T) s :
  connection_attempt d args r s = (Ok tt, after_connect d args r s).
Proof.
  unfold connection_attempt, connect, after_connect, connect_events,
    connect_succeeds.
  destruct s as [hc sb u ts m b ph n tr].
  destruct (isEmpty args) eqn:Hargs.
  - unfold_monad. cbn. rewrite app_nil_r. now destruct m.
  - unfold_monad.
    destruct (make_ok d args); unfold_setters; cbn;
      [| now rewrite app_nil_r].
    destruct (set_tx_rate_ok d (lit 1000000)); cbn; [| reflexivity].
    destruct (set_tx_freq_ok d (frequency r)); cbn;
      [| now rewrite <- ?app_assoc].
    destruct (set_tx_gain_ok d (gain r)); cbn;
      [| now rewrite <- ?app_assoc].
    destruct (get_tx_stream_ok d); cbn; now rewrite <- ?app_assoc.
Qed.

Lemma connect_fails_not_empty d args (r : Registers T) :
  connect_fails d args r = true -> isEmpty args = false.
Proof.
  unfold connect_fails. destruct (isEmpty args); [discriminate | reflexivity].
Qed.

Lemma connect_fails_not_succeeds d args (r : Registers T) :
  connect_fails d args r = true -> connect_succeeds d args r = false.
Proof.
  unfold connect_fails, connect_succeeds.
  destruct (isEmpty args); [discriminate|].
  cbn [negb andb]. now intros ->%negb_true_iff.
Qed.

Lemma connect_succeeds_not_empty d args (r : Registers T) :
  connect_succeeds d args r = true -> isEmpty args = false.
Proof.
  unfold connect_succeeds. destruct (isEmpty args); [discriminate | reflexivity].
Qed.

Lemma connect_succeeds_events d args (r : Registers T) :
  connect_succeeds d args r = true ->
  connect_events d args r
  = [EvMake args; EvSetTxRate (lit 1000000); EvSetTxFreq (frequency r);
     EvSetTxGain (gain r); EvGetTxStream].
Proof.
  unfold connect_succeeds, connect_events.
  destruct (isEmpty args); [discriminate|]. cbn [negb andb].
  intros H. repeat (apply andb_prop in H; destruct H as [H ?]).
  repeat match goal with Hx : _ = true |- _ => rewrite Hx; clear Hx end.
  reflexivity.
Qed.

(** *** Frames of a trace *)

Lemma frames_app (tr tr' : list (Event T)) :
  frames (tr ++ tr') = frames tr ++ frames tr'.
Proof.
  induction tr as [|ev tr IH]; [reflexivity|].
  cbn [app frames]. destruct (send_frame ev); [cbn; f_equal|]; exact IH.
Qed.

Lemma frames_repeat_sleep (n : nat) :
  frames (repeat (@EvSleep T 2000) n) = [].
Proof. induction n; [reflexivity | exact IHn]. Qed.

Lemma frames_connect_events d args (r : Registers T) :
  frames (connect_events d args r) = [].
Proof.
  unfold connect_events.
  repeat match goal with
         | |- context [if ?b then _ else _] => destruct b; cbn
         end; reflexivity.
Qed.

Lemma filter_sleep_connect_events d args (r : Registers T) :
  filter is_sleep (connect_events d args r) = [].
Proof.
  unfold connect_events.
  repeat match goal with
         | |- context [if ?b then _ else _] => destruct b; cbn
         end; reflexivity.
Qed.

Lemma filter_sleep_repeat (n : nat) :
  filter is_sleep (repeat (@EvSleep T 2000) n) = repeat (EvSleep 2000) n.
Proof. induction n; [reflexivity | cbn; now f_equal]. Qed.

(** *** The loop with hardware *)

Lemma send_through_cons c cs s :
  send_through (c :: cs) s = send_through cs (after_send c s).
Proof. reflexivity. Qed.

Lemma send_through_hardware_connected cs : forall s,
  hardware_connected (send_through cs s) = hardware_connected s.
Proof.
  induction cs as [|c cs IH]; intros s; [reflexivity|].
  now rewrite send_through_cons, IH, after_send_hardware_connected.
Qed.

Lemma send_through_tx_stream cs : forall s,
  tx_stream (send_through cs s) = tx_stream s.
Proof.
  induction cs as [|c cs IH]; intros s; [reflexivity|].
  now rewrite send_through_cons, IH, after_send_tx_stream.
Qed.

Lemma send_through_sends cs : forall s,
  sends (send_through cs s) = sends s + List.length cs.
Proof.
  induction cs as [|c cs IH]; intros s; [cbn; lia|].
  rewrite send_through_cons, IH, after_send_sends. cbn. lia.
Qed.

Lemma send_through_buff_length cs : forall s,
  List.length (buff s) = buff_size ->
  List.length (buff (send_through cs s)) = buff_size.
Proof.
  induction cs as [|c cs IH]; intros s Hlen; [assumption|].
  rewrite send_through_cons. apply IH.
  rewrite after_send_buff. now apply synthesized_buff_length.
Qed.

Lemma send_through_md cs : forall s,
  md (send_through cs s)
  = match cs with
    | [] => md s
    | _ :: _ => {| start_of_burst := false;
                   end_of_burst := end_of_burst (md s) |}
    end.
Proof.
  induction cs as [|c cs IH]; intros s; [reflexivity|].
  rewrite send_through_cons, IH, after_send_md. now destruct cs.
Qed.

(** Once the burst is open every pass sends a full frame with both flags
    as the metadata holds them. *)
Lemma send_through_frames_open cs : forall s,
  List.length (buff s) = buff_size ->
  start_of_burst (md s) = false ->
  frames (trace (send_through cs s))
  = frames (trace s)
    ++ repeat (buff_size, false, end_of_burst (md s)) (List.length cs).
Proof.
  induction cs as [|c cs IH]; intros s Hlen Hsob.
  - cbn. now rewrite app_nil_r.
  - rewrite send_through_cons, IH.
    + rewrite after_send_trace, after_send_md, frames_app. cbn.
      rewrite synthesized_buff_length, Hsob by assumption.
      now rewrite <- app_assoc.
    + rewrite after_send_buff. now apply synthesized_buff_length.
    + now rewrite after_send_md.
Qed.

Lemma send_through_frames cs s :
  List.length (buff s) = buff_size ->
  frames (trace (send_through cs s))
  = frames (trace s)
    ++ match cs with
       | [] => []
       | _ :: rest =>
           (buff_size, start_of_burst (md s), end_of_burst (md s))
           :: repeat (buff_size, false, end_of_burst (md s)) (List.length rest)
       end.
Proof.
  intros Hlen. destruct cs as [|c cs].
  - cbn. now rewrite app_nil_r.
  - rewrite send_through_cons, send_through_frames_open.
    + rewrite after_send_trace, after_send_md, frames_app. cbn.
      rewrite synthesized_buff_length by assumption.
      now rewrite <- app_assoc.
    + rewrite after_send_buff. now apply synthesized_buff_length.
    + now rewrite after_send_md.
Qed.

Lemma send_through_filter_sleep cs : forall s,
  filter is_sleep (trace (send_through cs s)) = filter is_sleep (trace s).
Proof.
  induction cs as [|c cs IH]; intros s; [reflexivity|].
  rewrite send_through_cons, IH, after_send_trace, filter_app. cbn.
  now rewrite app_nil_r.
Qed.

Lemma loop_sends d cs : forall s,
  hardware_connected s = true -> tx_stream s = true ->
  (forall k, k < List.length cs -> send_ok d (sends s + k) = true) ->
  loop d cs s = (Ok tt, send_through cs s).
Proof.
  induction cs as [|c cs IH]; intros s Hhc Hptr Hok; [reflexivity|].
  assert (Hfirst : send_ok d (sends s) = true)
    by (rewrite <- (Nat.add_0_r (sends s)); apply Hok; cbn; lia).
  rewrite loop_cons, cycle_sends by assumption.
  rewrite send_through_cons. apply IH.
  - now rewrite after_send_hardware_connected.
  - now rewrite after_send_tx_stream.
  - intros k Hk. rewrite after_send_sends.
    replace (S (sends s) + k) with (sends s + S k) by lia.
    apply Hok. cbn. lia.
Qed.

(** The pass whose send throws ends the loop: nothing catches it. *)
Lemma loop_throws d cs : forall s k,
  hardware_connected s = true -> tx_stream s = true ->
  (forall j, j < k -> send_ok d (sends s + j) = true) ->
  send_ok d (sends s + k) = false ->
  k < List.length cs ->
  exists c,
    nth_error cs k = Some c /\
    loop d cs s = (Thrown, synthesized c (send_through (firstn k cs) s)).
Proof.
  induction cs as [|c cs IH]; intros s k Hhc Hptr Hok Hfail Hk;
    [cbn in Hk; lia|].
  destruct k as [|k].
  - exists c. split; [reflexivity|].
    rewrite Nat.add_0_r in Hfail.
    now rewrite loop_cons, cycle_throws by assumption.
  - destruct (IH (after_send c s) k) as [c' [Hnth Hloop]].
    + now rewrite after_send_hardware_connected.
    + now rewrite after_send_tx_stream.
    + intros j Hj. rewrite after_send_sends.
      replace (S (sends s) + j) with (sends s + S j) by lia.
      apply Hok. lia.
    + rewrite after_send_sends.
      now replace (S (sends s) + k) with (sends s + S k) by lia.
    + cbn in Hk. lia.
    + exists c'. split; [exact Hnth|].
      assert (Hfirst : send_ok d (sends s) = true)
        by (rewrite <- (Nat.add_0_r (sends s)); apply Hok; lia).
      rewrite loop_cons, cycle_sends by assumption.
      exact Hloop.
Qed.

(** A stale [hardware_connected] with no stream: the first pass faults. *)
Lemma loop_faults d c cs s :
  hardware_connected s = true -> tx_stream s = false ->
  loop d (c :: cs) s = (Fault, synthesized c s).
Proof.
  intros Hhc Hptr. now rewrite loop_cons, cycle_faults.
Qed.

(** *** The end of the burst *)

Lemma end_burst_idle d s :
  hardware_connected s = false -> end_burst d s = (Ok tt, s).
Proof.
  intros Hhc. unfold end_burst. unfold_monad. now rewrite Hhc.
Qed.

Lemma end_burst_sends d s :
  hardware_connected s = true -> tx_stream s = true ->
  send_ok d (sends s) = true ->
  end_burst d s = (Ok tt, after_end_burst s).
Proof.
  intros Hhc Hptr Hok. unfold end_burst, after_end_burst, send.
  unfold_monad. rewrite Hhc. cbn [tx_stream set_md]. rewrite Hptr.
  cbn [sends set_md]. now rewrite Hok.
Qed.

Lemma end_burst_faults d s :
  hardware_connected s = true -> tx_stream s = false ->
  fst (end_burst d s) = Fault /\ trace (snd (end_burst d s)) = trace s.
Proof.
  intros Hhc Hptr. unfold end_burst, send.
  unfold_monad. rewrite Hhc. cbn [tx_stream set_md]. rewrite Hptr.
  split; reflexivity.
Qed.

(** *** [run], assembled *)

Lemma run_unfold d e w :
  run d e w
  = match loop d (cycles e)
            (after_connect d (device_args w) (at_connect e) (enter w)) with
    | (Ok _, s) => end_burst d s
    | (Thrown, s) => (Thrown, s)
    | (Fault, s) => (Fault, s)
    end.
Proof.
  unfold run, run_body, bind. rewrite connection_attempt_spec.
  destruct (loop d (cycles e) _) as [[[]| |] s]; reflexivity.
Qed.

Lemma enter_buff_length w : List.length (buff (enter w)) = buff_size.
Proof. apply repeat_length. Qed.

(** A run whose connection attempt does not end in [hardware_connected]. *)
Lemma run_simulated d e w :
  hardware_connected
    (after_connect d (device_args w) (at_connect e) (enter w)) = false ->
  run d e w
  = (Ok tt, sleep_through (cycles e)
              (after_connect d (device_args w) (at_connect e) (enter w))).
Proof.
  intros Hhc. rewrite run_unfold, loop_sleeps by assumption.
  apply end_burst_idle. now rewrite sleep_through_hardware_connected.
Qed.

(** A run on hardware whose sends all return. *)
Lemma run_streaming d e w :
  connect_succeeds d (device_args w) (at_connect e) = true ->
  (forall k, k <= List.length (cycles e) -> send_ok d k = true) ->
  run d e w
  = (Ok tt, after_end_burst
              (send_through (cycles e)
                 (after_connect d (device_args w) (at_connect e) (enter w)))).
Proof.
  intros Hconn Hok.
  pose proof (connect_succeeds_not_empty _ _ _ Hconn) as Hne.
  rewrite run_unfold, loop_sends.
  - apply end_burst_sends.
    + rewrite send_through_hardware_connected. cbn. now rewrite Hne.
    + rewrite send_through_tx_stream. cbn. now rewrite Hconn.
    + rewrite send_through_sends. cbn. apply Hok. lia.
  - cbn. now rewrite Hne.
  - cbn. now rewrite Hconn.
  - intros k Hk. cbn. apply Hok. lia.
Qed.

(** A run on hardware whose send number [k] throws. *)
Lemma run_send_throws d e w k :
  connect_succeeds d (device_args w) (at_connect e) = true ->
  (forall j, j < k -> send_ok d j = true) ->
  send_ok d k = false ->
  k < List.length (cycles e) ->
  exists c,
    nth_error (cycles e) k = Some c /\
    run d e w
    = (Thrown,
       synthesized c
         (send_through (firstn k (cycles e))
            (after_connect d (device_args w) (at_connect e) (enter w)))).
Proof.
  intros Hconn Hok Hfail Hk.
  pose proof (connect_succeeds_not_empty _ _ _ Hconn) as Hne.
  destruct (@loop_throws d (cycles e)
              (after_connect d (device_args w) (at_connect e) (enter w)) k)
    as [c [Hnth Hloop]]; try assumption.
  - cbn. now rewrite Hne.
  - cbn. now rewrite Hconn.
  - exists c. split; [exact Hnth|].
    now rewrite run_unfold, Hloop.
Qed.

End WorkerFacts.

(* ================================================================== *)
(** ** Connection failure and send failure *)

Section Failures.

Context {T : Type} {SC : Scalar T} {TR : Trig T}.

Implicit Types (d : Driver T) (c : Cycle T) (s : RunState T)
  (e : Env T) (w : Worker T).

(** C1.  If any step of the connection attempt throws (in particular when
    [make] finds no device for the identifier), the exception is caught by
    the attempt itself, which returns with [hardware_connected = false];
    [run] then returns normally, still with [hardware_connected = false],
    having sent nothing and slept once in each pass of the loop. *)
Theorem connect_failure_runs_simulated d e w :
  connect_fails d (device_args w) (at_connect e) = true ->
  let attempt :=
    connection_attempt d (device_args w) (at_connect e) (enter w) in
  let final := run d e w in
  fst attempt = Ok tt /\
  hardware_connected (snd attempt) = false /\
  fst final = Ok tt /\
  hardware_connected (snd final) = false /\
  frames (trace (snd final)) = [] /\
  filter is_sleep (trace (snd final))
  = repeat (EvSleep 2000) (List.length (cycles e)).
Proof.
  intros Hfail attempt final. subst attempt final.
  pose proof (connect_fails_not_empty _ _ _ Hfail) as Hne.
  pose proof (connect_fails_not_succeeds _ _ _ Hfail) as Hns.
  assert (Hhc : hardware_connected
                  (after_connect d (device_args w) (at_connect e) (enter w))
                = false) by (cbn; now rewrite Hne).
  rewrite connection_attempt_spec, run_simulated by assumption.
  cbn [fst snd].
  rewrite sleep_through_hardware_connected, sleep_through_trace.
  repeat split; try assumption.
  - rewrite frames_app, frames_repeat_sleep, app_nil_r.
    cbn [trace after_connect enter app]. apply frames_connect_events.
  - rewrite filter_app, filter_sleep_repeat.
    cbn [trace after_connect enter app].
    now rewrite filter_sleep_connect_events.
Qed.

End Failures.

Lemma connect_failure_runs_simulated_witness :
  fst (run absent_device (session 1 0 3) (fresh_worker b200)) = Ok tt /\
  hardware_connected
    (snd (run absent_device (session 1 0 3) (fresh_worker b200))) = false.
Proof.
  pose proof (@connect_failure_runs_simulated R _ _
                absent_device (session 1 0 3) (fresh_worker b200)
                eq_refl) as H.
  cbv zeta in H. split; apply H.
Defined.

(** C2.  The device is opened and streams, the first [send] returns and the
    second one throws (the device was pulled) while three passes of the loop
    were due.  The exception is not caught in the pass: it leaves [run].
    One frame was sent, no pass slept, and the worker still holds
    [hardware_connected = true]: the session did not degrade to simulation,
    it ended. *)
Theorem send_failure_escapes_run :
  let final := run (unplugged_after 1) (session 1 0 3) (fresh_worker b200) in
  fst final = Thrown /\
  hardware_connected (snd final) = true /\
  frames (trace (snd final)) = [(buff_size, true, false)] /\
  filter is_sleep (trace (snd final)) = [].
Proof.
  intros final. subst final.
  assert (Hconn : connect_succeeds (unplugged_after 1) b200
                    (at_connect (session 1 0 3)) = true) by reflexivity.
  destruct (@run_send_throws R _ _ (unplugged_after 1) (session 1 0 3)
              (fresh_worker b200) 1) as [c [_ Hrun]].
  - exact Hconn.
  - intros j Hj. cbn [send_ok unplugged_after]. apply Nat.ltb_lt. exact Hj.
  - reflexivity.
  - cbn. lia.
  - rewrite Hrun. cbn [fst snd].
    rewrite synthesized_hardware_connected, send_through_hardware_connected.
    rewrite synthesized_trace, send_through_filter_sleep.
    rewrite send_through_frames by apply enter_buff_length.
    cbn [device_args fresh_worker] in *.
    cbn [hardware_connected md trace after_connect enter app isEmpty b200].
    rewrite Hconn, frames_connect_events, filter_sleep_connect_events.
    repeat split; reflexivity.
Qed.

(* ================================================================== *)
(** ** Burst framing *)

Section Bursts.

Context {T : Type} {SC : Scalar T} {TR : Trig T}.

Implicit Types (d : Driver T) (c : Cycle T) (s : RunState T)
  (e : Env T) (w : Worker T).

Lemma burst_frames_S (n : nat) :
  burst_frames (S n)
  = (buff_size, true, false) :: repeat (buff_size, false, false) n
    ++ [(0, false, true)].
Proof.
  unfold burst_frames. cbn [seq map Nat.eqb app]. do 2 f_equal.
  rewrite <- seq_shift, map_map. cbn [Nat.eqb].
  induction n as [|n IH]; [reflexivity|].
  rewrite seq_S, map_app, IH. cbn [map Nat.add].
  now rewrite <- repeat_cons.
Qed.

Lemma burst_frames_opens (n : nat) :
  map opens_burst (burst_frames n) = true :: repeat false n.
Proof.
  destruct n as [|n]; [reflexivity|].
  rewrite burst_frames_S. cbn [map opens_burst fst snd]. f_equal.
  rewrite map_app, map_repeat. cbn. now rewrite <- repeat_cons.
Qed.

Lemma burst_frames_closes (n : nat) :
  filter closes_burst (burst_frames n) = [(0, Nat.eqb n 0, true)].
Proof.
  destruct n as [|n]; [reflexivity|].
  rewrite burst_frames_S. cbn [filter closes_burst snd]. rewrite filter_app.
  replace (filter closes_burst (repeat (buff_size, false, false) n))
    with (@nil (nat * bool * bool))
    by (induction n as [|n IH]; [reflexivity | exact IH]).
  reflexivity.
Qed.

Lemma after_connect_frames d args (r : Registers T) w :
  frames (trace (after_connect d args r (enter w))) = [].
Proof. cbn [trace after_connect enter app]. apply frames_connect_events. Qed.

(** A run whose connection attempt did not go through sends nothing. *)
Lemma run_not_connected_frames d e w :
  connect_succeeds d (device_args w) (at_connect e) = false ->
  frames (trace (snd (run d e w))) = [].
Proof.
  intros Hns.
  set (s0 := after_connect d (device_args w) (at_connect e) (enter w)).
  destruct (hardware_connected s0) eqn:Hhc.
  - assert (Hptr : tx_stream s0 = false)
      by (subst s0; cbn; now rewrite Hns).
    rewrite run_unfold. fold s0.
    destruct (cycles e) as [|c cs].
    + cbn [loop ret].
      destruct (end_burst_faults d s0 Hhc Hptr) as [_ Htr].
      rewrite Htr. apply after_connect_frames.
    + rewrite loop_faults by assumption. cbn [snd].
      rewrite synthesized_trace. apply after_connect_frames.
  - rewrite run_simulated by exact Hhc. cbn [snd]. fold s0.
    rewrite sleep_through_trace, frames_app, frames_repeat_sleep, app_nil_r.
    apply after_connect_frames.
Qed.

(** Restarting without a device a worker whose last run was on hardware:
    nothing resets [hardware_connected], the stream pointer of the new run
    is null, and its first use faults. *)
Lemma run_with_stale_flag_faults d e w :
  isEmpty (device_args w) = true ->
  w_hardware_connected w = true ->
  fst (run d e w) = Fault.
Proof.
  intros Hargs Hflag.
  set (s0 := after_connect d (device_args w) (at_connect e) (enter w)).
  assert (Hhc : hardware_connected s0 = true)
    by (subst s0; cbn; now rewrite Hargs).
  assert (Hptr : tx_stream s0 = false).
  { subst s0. cbn. unfold connect_succeeds. now rewrite Hargs. }
  rewrite run_unfold. fold s0.
  destruct (cycles e) as [|c cs].
  - cbn [loop ret]. now destruct (end_burst_faults d s0 Hhc Hptr).
  - now rewrite loop_faults.
Qed.

(** The burst of a session whose sends all return.  In a session whose
    connection attempt went through and whose sends return, the frames sent
    are: one full buffer per pass, the first with the start-of-burst flag
    and no other, then exactly one empty frame with the end-of-burst flag.
    (When the loop made no pass that closing frame is the first send and
    carries both flags.)  A session whose connection attempt did not go
    through sends no frame at all. *)
Theorem burst_framing d e w :
  let final := run d e w in
  let n := List.length (cycles e) in
  (connect_succeeds d (device_args w) (at_connect e) = true ->
   (forall k, k <= n -> send_ok d k = true) ->
   fst final = Ok tt /\
   frames (trace (snd final)) = burst_frames n /\
   map opens_burst (frames (trace (snd final))) = true :: repeat false n /\
   filter closes_burst (frames (trace (snd final)))
   = [(0, Nat.eqb n 0, true)])
  /\
  (connect_succeeds d (device_args w) (at_connect e) = false ->
   frames (trace (snd final)) = []).
Proof.
  intros final n. subst final n. split; [| apply run_not_connected_frames].
  intros Hconn Hok.
  assert (Hframes : frames (trace (snd (run d e w)))
                    = burst_frames (List.length (cycles e))).
  { rewrite run_streaming by assumption. cbn [snd].
    unfold after_end_burst. cbn [trace count_send log set_md md].
    rewrite frames_app, send_through_frames by apply enter_buff_length.
    rewrite after_connect_frames, send_through_md.
    cbn [md after_connect]. rewrite Hconn.
    destruct (cycles e) as [|c cs]; [reflexivity|].
    cbn [List.length]. rewrite burst_frames_S. reflexivity. }
  rewrite Hframes, burst_frames_opens, burst_frames_closes.
  rewrite run_streaming by assumption. repeat split.
Qed.

End Bursts.

Lemma burst_framing_witness :
  frames (trace (snd (run healthy_driver (session 1 0 3) (fresh_worker b200))))
  = [(buff_size, true, false); (buff_size, false, false);
     (buff_size, false, false); (0, false, true)].
Proof.
  destruct (@burst_framing R _ _ healthy_driver (session 1 0 3)
              (fresh_worker b200)) as [Hstream _].
  destruct Hstream as [_ [Hframes _]].
  - reflexivity.
  - intros k _. reflexivity.
  - exact Hframes.
Defined.

(* ================================================================== *)
(** ** Which registers reach the hardware, and when *)

Section RegisterUse.

Context {T : Type} {SC : Scalar T} {TR : Trig T}.

Implicit Types (d : Driver T) (c : Cycle T) (s : RunState T)
  (e : Env T) (w : Worker T).

#[local] Arguments synthesize : simpl never.
#[local] Arguments synthesized : simpl never.
#[local] Arguments buff_size : simpl never.

Lemma cycle_config d c s :
  filter is_config (trace (snd (cycle d c s))) = filter is_config (trace s).
Proof.
  destruct (hardware_connected s) eqn:Hhc.
  - destruct (tx_stream s) eqn:Hptr.
    + destruct (send_ok d (sends s)) eqn:Hok.
      * rewrite cycle_sends by assumption. cbn [snd].
        rewrite after_send_trace, filter_app. cbn. apply app_nil_r.
      * rewrite cycle_throws by assumption. reflexivity.
    + rewrite cycle_faults by assumption. reflexivity.
  - rewrite cycle_sleeps by assumption. cbn [snd].
    rewrite after_sleep_trace, filter_app. cbn. apply app_nil_r.
Qed.

Lemma loop_config d cs : forall s,
  filter is_config (trace (snd (loop d cs s))) = filter is_config (trace s).
Proof.
  induction cs as [|c cs IH]; intros s; [reflexivity|].
  rewrite loop_cons. pose proof (cycle_config d c s) as Hc.
  destruct (cycle d c s) as [[[]| |] s']; cbn [snd] in *; try exact Hc.
  now rewrite IH.
Qed.

Lemma end_burst_config d s :
  filter is_config (trace (snd (end_burst d s))) = filter is_config (trace s).
Proof.
  destruct (hardware_connected s) eqn:Hhc.
  - destruct (tx_stream s) eqn:Hptr.
    + unfold end_burst, send. unfold_monad. rewrite Hhc.
      cbn [tx_stream set_md]. rewrite Hptr. cbn [sends set_md].
      destruct (send_ok d (sends s)); cbn; [| reflexivity].
      rewrite filter_app. cbn. apply app_nil_r.
    + destruct (end_burst_faults d s Hhc Hptr) as [_ Htr]. now rewrite Htr.
  - now rewrite end_burst_idle.
Qed.

Lemma run_config d e w :
  filter is_config (trace (snd (run d e w)))
  = filter is_config (connect_events d (device_args w) (at_connect e)).
Proof.
  rewrite run_unfold.
  pose proof (loop_config d (cycles e)
                (after_connect d (device_args w) (at_connect e) (enter w)))
    as Hl.
  destruct (loop d (cycles e) _) as [[[]| |] s']; cbn [snd] in *;
    rewrite ?end_burst_config; exact Hl.
Qed.

Lemma connect_events_config d args (r : Registers T) :
  exists n,
    filter is_config (connect_events d args r)
    = firstn n (full_configuration r).
Proof.
  unfold connect_events, full_configuration.
  destruct (isEmpty args); [now exists 0|].
  destruct (make_ok d args); [| now exists 0]. cbn.
  destruct (set_tx_rate_ok d (lit 1000000)); [| now exists 0]. cbn.
  destruct (set_tx_freq_ok d (frequency r)); [| now exists 1]. cbn.
  destruct (set_tx_gain_ok d (gain r)); [| now exists 2]. cbn.
  destruct (get_tx_stream_ok d); now exists 3.
Qed.

(** A pass reads the amplitude, the waveform selector and the mutex, and
    nothing else of its surroundings. *)
Lemma cycle_frame d c c' s :
  same_synthesis_inputs c c' -> cycle d c s = cycle d c' s.
Proof.
  intros (Hamp & Htype & Hlock). unfold cycle.
  now rewrite Hamp, Htype, Hlock.
Qed.

Lemma loop_frame d cs cs' :
  Forall2 same_synthesis_inputs cs cs' ->
  forall s, loop d cs s = loop d cs' s.
Proof.
  induction 1 as [|c c' cs cs' Hc _ IH]; intros s; [reflexivity|].
  rewrite !loop_cons, (cycle_frame d s Hc).
  destruct (cycle d c' s) as [[[]| |] s']; auto.
Qed.


End RegisterUse.


(* ================================================================== *)
(** ** The synthesizer in exact arithmetic *)

Section ExactSynthesis.

Local Open Scope R_scope.

#[local] Arguments synthesize : simpl never.
#[local] Arguments buff_size : simpl never.

Lemma gtb_real (x y : R) : gtb x y = true <-> x > y.
Proof.
  cbn. destruct (Rgt_dec x y); split; intros; try easy; contradiction.
Qed.

Lemma gtb_real_false (x y : R) : gtb x y = false <-> x <= y.
Proof.
  cbn. destruct (Rgt_dec x y); split; intros; try easy; lra.
Qed.

Lemma phase_increment_real : phase_increment = PI / 50.
Proof.
  unfold phase_increment, current_freq, sample_rate. cbn. lra.
Qed.

(** One conditional subtraction of [2 * PI] for each sample. *)
Lemma advance_phase_real (inc ph : R) :
  advance_phase inc ph
  = if Rgt_dec (ph + inc) (2 * PI) then ph + inc - 2 * PI else ph + inc.
Proof.
  unfold advance_phase. cbn.
  destruct (Rgt_dec (ph + inc) (2 * PI)); reflexivity.
Qed.

Lemma phase_after_congruent (n : nat) (inc : R) : forall ph,
  exists m : nat,
    phase_after n inc ph = ph + INR n * inc - INR m * (2 * PI).
Proof.
  induction n as [|n IH]; intros ph.
  - exists 0%nat. cbn. lra.
  - cbn [phase_after]. destruct (IH (advance_phase inc ph)) as [m Hm].
    rewrite Hm, advance_phase_real, S_INR.
    destruct (Rgt_dec (ph + inc) (2 * PI)).
    + exists (S m). rewrite S_INR. lra.
    + exists m. lra.
Qed.

Lemma advance_phase_range (inc ph : R) :
  0 <= inc <= 2 * PI -> 0 <= ph <= 2 * PI ->
  0 <= advance_phase inc ph <= 2 * PI.
Proof.
  intros Hinc Hph. rewrite advance_phase_real.
  destruct (Rgt_dec (ph + inc) (2 * PI)); lra.
Qed.

Lemma phase_after_range (n : nat) (inc : R) : forall ph,
  0 <= inc <= 2 * PI -> 0 <= ph <= 2 * PI ->
  0 <= phase_after n inc ph <= 2 * PI.
Proof.
  induction n as [|n IH]; intros ph Hinc Hph; [exact Hph|].
  cbn [phase_after]. apply IH; [exact Hinc|].
  now apply advance_phase_range.
Qed.

(** With the worker's increment, a hundredth of a turn, the phase runs
    through the multiples [1 .. 100] of [PI / 50]: the hundredth one is
    [2 * PI] itself, which the strict test leaves in place. *)
Lemma hundredth_advance (z : Z) :
  (1 <= z <= 100)%Z ->
  advance_phase (PI / 50) (IZR z * (PI / 50))
  = IZR (if (z =? 100)%Z then 1 else z + 1) * (PI / 50).
Proof.
  intros Hz. rewrite advance_phase_real. pose proof PI_RGT_0 as Hpi.
  destruct (Z.eqb_spec z 100) as [-> | Hne].
  - destruct (Rgt_dec (100 * (PI / 50) + PI / 50) (2 * PI)); lra.
  - assert (Hle : IZR z <= 99) by (apply IZR_le; lia).
    rewrite plus_IZR.
    destruct (Rgt_dec (IZR z * (PI / 50) + PI / 50) (2 * PI)); nra.
Qed.

Lemma hundredth_phase (k : nat) : forall z : Z,
  (1 <= z <= 100)%Z ->
  phase_after k (PI / 50) (IZR z * (PI / 50))
  = IZR ((z - 1 + Z.of_nat k) mod 100 + 1) * (PI / 50).
Proof.
  induction k as [|k IH]; intros z Hz.
  - cbn [phase_after Z.of_nat]. do 2 f_equal.
    rewrite Z.add_0_r, Z.mod_small by lia. lia.
  - cbn [phase_after]. rewrite hundredth_advance by assumption.
    destruct (Z.eqb_spec z 100) as [-> | Hne].
    + rewrite IH by lia. do 3 f_equal.
      replace (100 - 1 + Z.of_nat (S k))%Z
        with (1 - 1 + Z.of_nat k + 1 * 100)%Z by lia.
      now rewrite Z.mod_add.
    + rewrite IH by lia. do 4 f_equal. lia.
Qed.

Lemma phase_from_zero (n : nat) :
  (0 < n)%nat ->
  phase_after n (PI / 50) 0
  = IZR ((Z.of_nat n - 1) mod 100 + 1) * (PI / 50).
Proof.
  destruct n as [|k]; [lia | intros _].
  cbn [phase_after]. rewrite advance_phase_real.
  pose proof PI_RGT_0 as Hpi.
  destruct (Rgt_dec (0 + PI / 50) (2 * PI)); [lra|].
  replace (0 + PI / 50) with (IZR 1 * (PI / 50)) by lra.
  rewrite hundredth_phase by lia. do 4 f_equal. lia.
Qed.

End ExactSynthesis.

(* ================================================================== *)
(** ** The phase in exact arithmetic on the program's constants *)

(** The double [M_PI] lies below [PI] (by about 1.2e-16). *)
Lemma M_PI_below_PI : (M_PI_value < PI)%R.
Proof.
  pose proof (PI_2_3_7_ineq 8) as [Hlow _].
  unfold M_PI_value.
  apply Rlt_le_trans
    with (4 * sum_f_R0 (tg_alt PI_2_3_7_tg) (S (2 * 8)))%R; [| lra].
  clear Hlow. unfold PI_2_3_7_tg, tg_alt, Ratan_seq.
  cbn -[pow INR Rmult Rplus Rdiv Rinv IZR].
  repeat rewrite INR_IZR_INZ.
  cbn [Z.of_nat Pos.of_succ_nat Pos.succ Nat.mul Nat.add].
  lra.
Qed.

Lemma M_PI_positive : (0 < M_PI_value)%R.
Proof. unfold M_PI_value. lra. Qed.

(** [M_PI_value] is the double [M_PI]: mantissa and power of two are exact
    in binary64. *)
Example M_PI_value_is_M_PI :
  PrimFloat.div (PrimFloat.of_uint63 7074237752028440)
    (PrimFloat.of_uint63 2251799813685248)
  = M_PI.
Proof. vm_compute. reflexivity. Qed.

Section ExactConstants.

Local Open Scope R_scope.

Variable m : R.
Hypothesis m_positive : 0 < m.

Lemma advance_phase_exact (inc ph : R) :
  @advance_phase R (ExactScalar m) inc ph
  = if Rgt_dec (ph + inc) (2 * m) then ph + inc - 2 * m else ph + inc.
Proof.
  unfold advance_phase. cbn.
  destruct (Rgt_dec (ph + inc) (2 * m)); reflexivity.
Qed.

Lemma phase_increment_exact : @phase_increment R (ExactScalar m) = m / 50.
Proof.
  unfold phase_increment, current_freq, sample_rate. cbn. lra.
Qed.

Lemma phase_after_range_exact (n : nat) (inc : R) : forall ph,
  0 <= inc <= 2 * m -> 0 <= ph <= 2 * m ->
  0 <= @phase_after R (ExactScalar m) n inc ph <= 2 * m.
Proof.
  induction n as [|n IH]; intros ph Hinc Hph; [exact Hph|].
  cbn [phase_after]. apply IH; [exact Hinc|].
  rewrite advance_phase_exact.
  destruct (Rgt_dec (ph + inc) (2 * m)); lra.
Qed.

Lemma phase_after_congruent_exact (n : nat) (inc : R) : forall ph,
  exists k : nat,
    @phase_after R (ExactScalar m) n inc ph
    = ph + INR n * inc - INR k * (2 * m).
Proof.
  induction n as [|n IH]; intros ph.
  - exists 0%nat. cbn. lra.
  - cbn [phase_after].
    destruct (IH (@advance_phase R (ExactScalar m) inc ph)) as [k Hk].
    rewrite Hk, advance_phase_exact, S_INR.
    destruct (Rgt_dec (ph + inc) (2 * m)).
    + exists (S k). rewrite S_INR. lra.
    + exists k. lra.
Qed.

(** With a hundredth of a turn as increment the phase runs through the
    multiples [1 .. 100] of it; the hundredth is the full turn [2 * m],
    which the strict test leaves in place. *)
Lemma hundredth_advance_exact (z : Z) :
  (1 <= z <= 100)%Z ->
  @advance_phase R (ExactScalar m) (m / 50) (IZR z * (m / 50))
  = IZR (if (z =? 100)%Z then 1 else z + 1) * (m / 50).
Proof.
  intros Hz. rewrite advance_phase_exact.
  destruct (Z.eqb_spec z 100) as [-> | Hne].
  - destruct (Rgt_dec (100 * (m / 50) + m / 50) (2 * m)); lra.
  - assert (Hle : IZR z <= 99) by (apply IZR_le; lia).
    rewrite plus_IZR.
    destruct (Rgt_dec (IZR z * (m / 50) + m / 50) (2 * m)); nra.
Qed.

Lemma hundredth_phase_exact (k : nat) : forall z : Z,
  (1 <= z <= 100)%Z ->
  @phase_after R (ExactScalar m) k (m / 50) (IZR z * (m / 50))
  = IZR ((z - 1 + Z.of_nat k) mod 100 + 1) * (m / 50).
Proof.
  induction k as [|k IH]; intros z Hz.
  - cbn [phase_after Z.of_nat]. do 2 f_equal.
    rewrite Z.add_0_r, Z.mod_small by lia. lia.
  - cbn [phase_after]. rewrite hundredth_advance_exact by assumption.
    destruct (Z.eqb_spec z 100) as [-> | Hne].
    + rewrite IH by lia. do 3 f_equal.
      replace (100 - 1 + Z.of_nat (S k))%Z
        with (1 - 1 + Z.of_nat k + 1 * 100)%Z by lia.
      now rewrite Z.mod_add.
    + rewrite IH by lia. do 4 f_equal. lia.
Qed.

Lemma phase_from_zero_exact (n : nat) :
  (0 < n)%nat ->
  @phase_after R (ExactScalar m) n (m / 50) 0
  = IZR ((Z.of_nat n - 1) mod 100 + 1) * (m / 50).
Proof.
  destruct n as [|k]; [lia | intros _].
  cbn [phase_after]. rewrite advance_phase_exact.
  destruct (Rgt_dec (0 + m / 50) (2 * m)); [lra|].
  replace (0 + m / 50) with (IZR 1 * (m / 50)) by lra.
  rewrite hundredth_phase_exact by lia. do 4 f_equal. lia.
Qed.

End ExactConstants.

Section ProgramPhase.

Local Open Scope R_scope.


End ProgramPhase.


(* ================================================================== *)
(** ** Samples in exact arithmetic *)

Section ExactSamples.

Local Open Scope R_scope.

#[local] Arguments synthesize : simpl never.
#[local] Arguments buff_size : simpl never.

Lemma square_level_real (x : R) :
  square_level x = if Rgt_dec x 0 then 1 else -1.
Proof. unfold square_level. cbn. destruct (Rgt_dec x 0); reflexivity. Qed.

Lemma gen_sample_sine (amp theta : R) :
  gen_sample 0 amp theta = (amp * cos theta, amp * sin theta).
Proof. unfold gen_sample. cbn. f_equal; apply Rmult_comm. Qed.

Lemma gen_sample_square (type : Z) (amp theta : R) :
  type <> 0%Z ->
  gen_sample type amp theta
  = (amp * square_level (cos theta), amp * square_level (sin theta)).
Proof.
  intros Htype. unfold gen_sample.
  apply Z.eqb_neq in Htype. rewrite Htype. cbn.
  f_equal; apply Rmult_comm.
Qed.

(** Sample [i] of a synthesized buffer, whatever the arithmetic. *)
Lemma synthesize_nth {T : Type} {SC : Scalar T} {TR : Trig T}
    (type : Z) (amp inc ph : T) (buff : list (Sample T)) (i : nat) :
  List.length buff = buff_size -> (i < buff_size)%nat ->
  nth_error (fst (synthesize type amp inc buff ph)) i
  = Some (gen_sample type amp (phase_after i inc ph)).
Proof.
  intros Hlen Hi. rewrite synthesize_spec by assumption.
  now apply samples_from_nth.
Qed.

(** C4.  With the selector at SINE (0), sample [i] of the buffer is
    [(amp * cos theta_i, amp * sin theta_i)], [theta_i] being the phase
    after [i] samples; the squares of its two parts add up to [amp * amp]. *)
Theorem sine_samples (amp inc ph : R) (buff : list (Sample R)) (i : nat) :
  List.length buff = buff_size -> (i < buff_size)%nat ->
  let theta := phase_after i inc ph in
  let out := fst (synthesize 0 amp inc buff ph) in
  nth_error out i = Some (amp * cos theta, amp * sin theta) /\
  (forall re im,
     nth_error out i = Some (re, im) -> re * re + im * im = amp * amp).
Proof.
  intros Hlen Hi theta out. subst theta out.
  rewrite synthesize_nth, gen_sample_sine by assumption.
  split; [reflexivity|].
  intros re im [= <- <-].
  pose proof (sin2_cos2 (phase_after i inc ph)) as Hunit.
  unfold Rsqr in Hunit. nra.
Qed.

(** C5.  With the selector at SQUARE (any value but 0), sample [i] is
    [(amp * sign (cos theta_i), amp * sign (sin theta_i))] where [sign x] is
    [1] when [x > 0] and [-1] otherwise, zero included; each part of the
    sample is [amp] or [- amp]. *)
Theorem square_samples (type : Z) (amp inc ph : R)
    (buff : list (Sample R)) (i : nat) :
  type <> 0%Z ->
  List.length buff = buff_size -> (i < buff_size)%nat ->
  let theta := phase_after i inc ph in
  let out := fst (synthesize type amp inc buff ph) in
  nth_error out i
  = Some (amp * square_level (cos theta), amp * square_level (sin theta)) /\
  (forall x, square_level x = if Rgt_dec x 0 then 1 else -1) /\
  (forall re im,
     nth_error out i = Some (re, im) ->
     (re = amp \/ re = - amp) /\ (im = amp \/ im = - amp)).
Proof.
  intros Htype Hlen Hi theta out. subst theta out.
  rewrite synthesize_nth, gen_sample_square by assumption.
  split; [reflexivity|]. split; [apply square_level_real|].
  intros re im [= <- <-]. rewrite !square_level_real.
  destruct (Rgt_dec (cos (phase_after i inc ph)) 0),
    (Rgt_dec (sin (phase_after i inc ph)) 0); split; lra.
Qed.

(** C10.  In SQUARE mode the comparison with zero is strict: where
    [cos theta_i] is zero or negative the real part of sample [i] is exactly
    [- amp], and likewise for [sin theta_i] and the imaginary part.  Zero
    counts as negative. *)
Theorem square_zero_counts_as_negative (type : Z) (amp inc ph : R)
    (buff : list (Sample R)) (i : nat) :
  type <> 0%Z ->
  List.length buff = buff_size -> (i < buff_size)%nat ->
  let theta := phase_after i inc ph in
  let out := fst (synthesize type amp inc buff ph) in
  square_level 0 = -1 /\
  (forall re im,
     nth_error out i = Some (re, im) ->
     (cos theta <= 0 -> re = - amp) /\ (sin theta <= 0 -> im = - amp)).
Proof.
  intros Htype Hlen Hi theta out. subst theta out.
  rewrite synthesize_nth, gen_sample_square by assumption.
  split.
  - rewrite square_level_real. destruct (Rgt_dec 0 0); lra.
  - intros re im [= <- <-]. rewrite !square_level_real.
    split; intros Hneg.
    + destruct (Rgt_dec (cos (phase_after i inc ph)) 0); lra.
    + destruct (Rgt_dec (sin (phase_after i inc ph)) 0); lra.
Qed.

End ExactSamples.

Lemma sine_samples_witness :
  nth_error
    (fst (synthesize 0 (1 / 2)%R (PI / 50)%R (repeat (0%R, 0%R) buff_size) 0%R))
    0
  = Some ((1 / 2) * cos 0, (1 / 2) * sin 0)%R.
Proof.
  apply (@sine_samples (1 / 2)%R (PI / 50)%R 0%R (repeat (0%R, 0%R) buff_size)
           0%nat).
  - apply repeat_length.
  - unfold buff_size. lia.
Defined.

Lemma square_samples_witness :
  nth_error
    (fst (synthesize 1 (1 / 2)%R (PI / 50)%R (repeat (0%R, 0%R) buff_size) 0%R))
    0
  = Some ((1 / 2) * square_level (cos 0), (1 / 2) * square_level (sin 0))%R.
Proof.
  apply (@square_samples 1 (1 / 2)%R (PI / 50)%R 0%R
           (repeat (0%R, 0%R) buff_size) 0%nat).
  - discriminate.
  - apply repeat_length.
  - unfold buff_size. lia.
Defined.

(** At phase [PI / 2] the cosine is zero: the real part is [- amp]. *)
Lemma square_zero_counts_as_negative_witness :
  option_map fst
    (nth_error
       (fst (synthesize 1 (1 / 2)%R (PI / 50)%R (repeat (0%R, 0%R) buff_size)
               (PI / 2)%R)) 0)
  = Some (- (1 / 2))%R.
Proof.
  assert (Hlen : List.length (repeat (0%R, 0%R) buff_size) = buff_size)
    by apply repeat_length.
  assert (Hi : 0 < buff_size) by (unfold buff_size; lia).
  destruct (@square_zero_counts_as_negative 1 (1 / 2)%R (PI / 50)%R
              (PI / 2)%R (repeat (0%R, 0%R) buff_size) 0%nat)
    as [_ Hneg]; [discriminate | exact Hlen | exact Hi |].
  destruct (nth_error _ 0) as [[re im]|] eqn:Hnth.
  - destruct (Hneg re im eq_refl) as [Hre _].
    cbn [option_map fst]. f_equal. apply Hre.
    cbn [phase_after]. rewrite cos_PI2. apply Rle_refl.
  - rewrite synthesize_nth in Hnth by assumption. discriminate.
Defined.

(* ================================================================== *)
(** ** The snapshot after some passes in simulation *)

Section Snapshot.

Context {T : Type} {SC : Scalar T} {TR : Trig T}.

#[local] Arguments synthesize : simpl never.
#[local] Arguments synthesized : simpl never.
#[local] Arguments buff_size : simpl never.

(** After passes that do not send, the last of which finds the mutex free,
    [shared_buffer] holds the buffer of that last pass, synthesized from
    the phase all earlier passes have accumulated. *)
Lemma snapshot_after_passes (cs : list (Cycle T)) (c : Cycle T)
    (s : RunState T) :
  try_lock c = true ->
  List.length (buff s) = buff_size ->
  shared_buffer (sleep_through (cs ++ [c]) s)
  = samples_from (waveform_type (regs c)) (amplitude (regs c)) phase_increment
      (phase_after (List.length cs * buff_size) phase_increment (phase s))
      buff_size.
Proof.
  intros Hlock Hlen. rewrite sleep_through_app.
  unfold sleep_through at 1. cbn [fold_left].
  rewrite after_sleep_shared_buffer, Hlock.
  rewrite synthesized_buff by now apply sleep_through_buff_length.
  now rewrite sleep_through_phase.
Qed.

End Snapshot.

Section ExactSnapshot.

Local Open Scope R_scope.

#[local] Arguments synthesize : simpl never.
#[local] Arguments buff_size : simpl never.

(** The snapshot left by [S n] quiet passes without a device. *)
Lemma quiet_session_snapshot (d : Driver R) (amp : R) (type : Z) (n : nat) :
  shared_buffer (snd (run d (session amp type (S n)) (fresh_worker simulation_mode)))
  = samples_from type amp (PI / 50)
      (phase_after (n * buff_size) (PI / 50) 0) buff_size.
Proof.
  rewrite run_simulated by reflexivity. cbn [snd].
  cbn [cycles session repeat]. rewrite repeat_cons, snapshot_after_passes.
  - rewrite repeat_length, phase_increment_real. reflexivity.
  - reflexivity.
  - apply repeat_length.
Qed.

(** Nine buffers of 2048 samples are 184 turns and 32 hundredths. *)
Lemma phase_entering_tenth_pass :
  phase_after (9 * buff_size) (PI / 50) 0 = 16 * PI / 25.
Proof.
  rewrite phase_from_zero by (unfold buff_size; lia).
  replace ((Z.of_nat (9 * buff_size) - 1) mod 100 + 1)%Z with 32%Z
    by (vm_compute; reflexivity).
  lra.
Qed.

Lemma quiet_session_sample_zero (d : Driver R) (amp : R) (n : nat) :
  nth_error
    (shared_buffer (snd (run d (session amp 0 (S n)) (fresh_worker simulation_mode)))) 0
  = Some (amp * cos (phase_after (n * buff_size) (PI / 50) 0),
          amp * sin (phase_after (n * buff_size) (PI / 50) 0)).
Proof.
  rewrite quiet_session_snapshot, samples_from_nth
    by (unfold buff_size; lia).
  cbn [phase_after]. now rewrite gen_sample_sine.
Qed.

(** C9 (as amended).  In simulation with amplitude 0.5 and SINE, the
    snapshot after the first pass has sample 0 equal to [(0.5, 0)].  The
    phase is carried from one buffer to the next, and a buffer of 2048
    samples is not a whole number of periods of 100 samples: after [n + 1]
    passes sample 0 sits at the phase reached after [n * 2048] samples,
    which after 10 passes is [16 * PI / 25], so that sample 0 is
    [(0.5 * cos (16 * PI / 25), 0.5 * sin (16 * PI / 25))], about
    [(-0.213, 0.452)]. *)
Theorem snapshot_sample_zero (d : Driver R) :
  nth_error
    (shared_buffer (snd (run d (session (1 / 2) 0 1) (fresh_worker simulation_mode)))) 0
  = Some (1 / 2, 0) /\
  nth_error
    (shared_buffer (snd (run d (session (1 / 2) 0 10) (fresh_worker simulation_mode)))) 0
  = Some (1 / 2 * cos (16 * PI / 25), 1 / 2 * sin (16 * PI / 25)) /\
  (forall n,
     nth_error
       (shared_buffer
          (snd (run d (session (1 / 2) 0 (S n)) (fresh_worker simulation_mode)))) 0
     = Some (1 / 2 * cos (phase_after (n * buff_size) (PI / 50) 0),
             1 / 2 * sin (phase_after (n * buff_size) (PI / 50) 0))).
Proof.
  repeat split.
  - rewrite quiet_session_sample_zero. cbn [Nat.mul phase_after].
    rewrite cos_0, sin_0. do 2 f_equal; lra.
  - rewrite quiet_session_sample_zero, phase_entering_tenth_pass.
    reflexivity.
  - intros n. apply quiet_session_sample_zero.
Qed.

End ExactSnapshot.

(** C9 (as stated) fails: after ten passes in simulation with amplitude 0.5
    and SINE, sample 0 of the snapshot has a negative real part and an
    imaginary part above 0.25; it is nowhere near [(0.5, 0)]. *)
Lemma snapshot_after_ten_cycles_is_elsewhere :
  exists re im : R,
    nth_error
      (shared_buffer
         (snd (run healthy_driver (session (1 / 2) 0 10) (fresh_worker simulation_mode))))
      0
    = Some (re, im) /\ (re < 0)%R /\ (1 / 4 < im)%R.
Proof.
  exists (1 / 2 * cos (16 * PI / 25))%R, (1 / 2 * sin (16 * PI / 25))%R.
  pose proof PI_RGT_0 as Hpi.
  split; [| split].
  - rewrite quiet_session_sample_zero, phase_entering_tenth_pass.
    reflexivity.
  - assert (cos (16 * PI / 25) < 0)%R by (apply cos_lt_0; lra). lra.
  - assert (Hsin : (sin (PI / 6) < sin (9 * PI / 25))%R)
      by (apply sin_increasing_1; lra).
    rewrite sin_PI6 in Hsin.
    replace (16 * PI / 25)%R with (PI - 9 * PI / 25)%R by lra.
    rewrite sin_PI_x. lra.
Qed.

(* ================================================================== *)
(** ** The snapshot channel under every schedule *)

Module SnapshotChannelFacts.

Import SnapshotChannel.

Section Facts.

Context {A : Type}.

Implicit Types (s : Channel A) (v b : list A) (bufs : list (list A)).

Ltac project :=
  cbn [data_mutex shared_buffer worker_pc to_publish reader_pc local_data
       published].

Lemma firstn_snoc v (i : nat) (x : A) :
  nth_error v i = Some x -> firstn (S i) v = firstn i v ++ [x].
Proof.
  revert i; induction v as [|h t IH]; intros [|i] Hnth; try discriminate.
  - now injection Hnth as ->.
  - cbn [firstn app]. f_equal. now apply IH.
Qed.

Lemma firstn_assign_at v (i : nat) (x : A) :
  i <= List.length v ->
  firstn (S i) (assign_at v i x) = firstn i v ++ [x].
Proof.
  intros Hi. unfold assign_at.
  assert (Hlen : List.length (firstn i v) = i) by (rewrite length_firstn; lia).
  rewrite firstn_app, Hlen.
  replace (S i - i) with 1 by lia.
  rewrite firstn_all2 by lia. reflexivity.
Qed.

Lemma firstn_agree_length v b (i : nat) :
  i <= List.length b -> firstn i v = firstn i b -> i <= List.length v.
Proof.
  intros Hi Heq. apply (f_equal (@List.length A)) in Heq.
  rewrite !length_firstn in Heq. lia.
Qed.

Lemma invariant_init (slot0 : list A) bufs :
  invariant slot0 (init slot0 bufs).
Proof. unfold invariant, init, latest. cbn. repeat split; discriminate. Qed.

Lemma history_sound_init (slot0 : list A) bufs :
  history_sound bufs (init slot0 bufs).
Proof. exists []. split; [reflexivity | apply incl_refl]. Qed.

Lemma worker_step_invariant (slot0 : list A) s s' :
  invariant slot0 s -> worker_step s = Some s' -> invariant slot0 s'.
Proof.
  unfold invariant, worker_step, latest.
  intros [Hw Hr] Hstep.
  destruct (to_publish s) as [|b rest] eqn:Htodo; [discriminate|].
  destruct (worker_pc s) as [|i|] eqn:Hpc.
  - (* tryLock *)
    destruct Hw as [Hmx Hslot].
    destruct (data_mutex s) as [owner|] eqn:Hm;
      injection Hstep as <-; project.
    + split; [now split|]. destruct (reader_pc s); exact Hr.
    + split.
      * split; [reflexivity|]. exists b, rest. repeat split. lia.
      * destruct (reader_pc s); intuition congruence.
  - (* one element of the assignment *)
    destruct Hw as [Hmx (b0 & rest0 & [= <- <-] & Hi & Hpre)].
    destruct (nth_error b i) as [x|] eqn:Hnth;
      injection Hstep as <-; project.
    + split.
      * split; [exact Hmx|]. exists b, rest. repeat split.
        -- apply nth_error_Some. congruence.
        -- rewrite firstn_assign_at by now apply firstn_agree_length with b.
           rewrite (firstn_snoc _ _ Hnth). now f_equal.
      * rewrite Hmx in Hr |- *. destruct (reader_pc s); intuition congruence.
    + split.
      * split; [exact Hmx|]. exists b, rest. split; [reflexivity|].
        apply nth_error_None in Hnth.
        replace (List.length b) with i by lia.
        rewrite Hpre. apply firstn_all2. lia.
      * rewrite Hmx in Hr |- *. destruct (reader_pc s); intuition congruence.
  - (* unlock *)
    destruct Hw as [Hmx (b0 & rest0 & [= <- <-] & Hslot)].
    injection Hstep as <-; project. split.
    + split; [discriminate | exact Hslot].
    + rewrite Hmx in Hr.
      destruct (reader_pc s); try (intuition congruence).
      destruct Hr as [_ Hin]. split; [discriminate|]. now right.
Qed.

Lemma reader_step_invariant (slot0 : list A) s s' :
  invariant slot0 s -> reader_step s = Some s' -> invariant slot0 s'.
Proof.
  unfold invariant, reader_step, latest.
  intros [Hw Hr] Hstep.
  destruct (reader_pc s) as [|j| |] eqn:Hpc.
  - (* lock *)
    destruct (data_mutex s) as [owner|] eqn:Hm; [discriminate|].
    injection Hstep as <-; project. split.
    + destruct (worker_pc s); intuition congruence.
    + now split.
  - (* one element of the copy *)
    destruct Hr as [Hmx Hpre].
    destruct (nth_error (shared_buffer s) j) as [x|] eqn:Hnth;
      injection Hstep as <-; project.
    + split; [destruct (worker_pc s); exact Hw|].
      split; [exact Hmx|]. rewrite (firstn_snoc _ _ Hnth). now f_equal.
    + split; [destruct (worker_pc s); exact Hw|].
      split; [exact Hmx|]. rewrite Hpre.
      apply firstn_all2. now apply nth_error_None.
  - (* unlock *)
    destruct Hr as [Hmx Hcopy].
    injection Hstep as <-; project. rewrite Hmx in Hw.
    destruct (worker_pc s) as [|i|] eqn:Hwpc;
      try (destruct Hw as [Hw _]; discriminate).
    destruct Hw as [_ Hslot]. split.
    + split; [discriminate | exact Hslot].
    + split; [discriminate|]. rewrite Hcopy, Hslot.
      destruct (published s); cbn; auto.
  - (* back to the next timer tick *)
    injection Hstep as <-; project. split.
    + destruct (worker_pc s); exact Hw.
    + apply Hr.
Qed.

Lemma step_invariant (slot0 : list A) (t : Thread) s :
  invariant slot0 s -> invariant slot0 (step t s).
Proof.
  intros Hinv. unfold step. destruct t.
  - destruct (worker_step s) eqn:Hs; [|exact Hinv].
    now apply worker_step_invariant with s.
  - destruct (reader_step s) eqn:Hs; [|exact Hinv].
    now apply reader_step_invariant with s.
Qed.

Lemma exec_invariant (slot0 : list A) (schedule : list Thread) : forall s,
  invariant slot0 s -> invariant slot0 (exec schedule s).
Proof.
  induction schedule as [|t rest IH]; intros s Hinv; [exact Hinv|].
  cbn [exec]. apply IH. now apply step_invariant.
Qed.

Lemma step_history_sound bufs (t : Thread) s :
  history_sound bufs s -> history_sound bufs (step t s).
Proof.
  intros (done & Hbufs & Hincl). unfold step, history_sound.
  destruct t.
  - unfold worker_step.
    destruct (to_publish s) as [|b rest] eqn:Htodo.
    + exists done. rewrite Htodo. now split.
    + assert (Hpop : bufs = (done ++ [b]) ++ rest)
        by now rewrite <- app_assoc.
      destruct (worker_pc s) as [|i|].
      * destruct (data_mutex s); project.
        -- exists (done ++ [b]). split; [exact Hpop | now apply incl_appl].
        -- exists done. now split.
      * destruct (nth_error b i); project; exists done; now split.
      * project. exists (done ++ [b]). split; [exact Hpop|].
        apply incl_cons; [apply in_or_app; right; now left|].
        now apply incl_appl.
  - unfold reader_step.
    destruct (reader_pc s) as [|j| |].
    + destruct (data_mutex s); project; now exists done.
    + destruct (nth_error (shared_buffer s) j); project; now exists done.
    + project. now exists done.
    + project. now exists done.
Qed.

Lemma exec_history_sound bufs (schedule : list Thread) : forall s,
  history_sound bufs s -> history_sound bufs (exec schedule s).
Proof.
  induction schedule as [|t rest IH]; intros s Hs; [exact Hs|].
  cbn [exec]. apply IH. now apply step_history_sound.
Qed.

Lemma worker_step_enabled s :
  to_publish s <> [] -> worker_step s <> None.
Proof.
  intros Htodo. unfold worker_step.
  destruct (to_publish s) as [|b rest]; [contradiction|].
  destruct (worker_pc s) as [|i|].
  - destruct (data_mutex s); discriminate.
  - destruct (nth_error b i); discriminate.
  - discriminate.
Qed.

(** C8.  Under every schedule of the two threads, starting with the mutex
    free:
    - the worker always has a step to take while it has a buffer to
      publish: [tryLock] returns at once, it never waits for the reader;
    - while the reader holds the mutex the worker stands at [tryLock], and
      its step skips the publication: [shared_buffer] is left as it is and
      the worker goes on to its next pass;
    - between two publications [shared_buffer] is the latest buffer
      published, whole (the initial contents when there is none);
    - what the reader copies is at every moment a prefix of that latest
      buffer, and all of it when the reader releases the mutex;
    - what the reader returns with is the initial contents or a buffer the
      worker has published, whole; every published buffer is one the worker
      synthesized. *)
Theorem publication_never_blocks_nor_tears
    (slot0 : list A) bufs (schedule : list Thread) :
  let s := exec schedule (init slot0 bufs) in
  (to_publish s <> [] -> worker_step s <> None) /\
  (data_mutex s = Some GuiThread ->
   worker_pc s = AtTryLock /\
   shared_buffer (step WorkerThread s) = shared_buffer s /\
   to_publish (step WorkerThread s) = tl (to_publish s)) /\
  (worker_pc s = AtTryLock -> shared_buffer s = latest slot0 s) /\
  (forall j, reader_pc s = Copying j ->
             local_data s = firstn j (latest slot0 s)) /\
  (reader_pc s = ReaderAtUnlock -> local_data s = latest slot0 s) /\
  (reader_pc s = Returned -> In (local_data s) (published s ++ [slot0])) /\
  (forall v, In v (published s) -> In v bufs).
Proof.
  intros s.
  assert (Hinv : invariant slot0 s)
    by (apply exec_invariant, invariant_init).
  assert (Hhist : history_sound bufs s)
    by (apply exec_history_sound, history_sound_init).
  clearbody s. destruct Hinv as [Hw Hr].
  assert (Hheld : data_mutex s = Some GuiThread ->
                  worker_pc s = AtTryLock /\ shared_buffer s = latest slot0 s).
  { intros Hm. rewrite Hm in Hw.
    destruct (worker_pc s); [| destruct Hw as [Hw _]; discriminate
                             | destruct Hw as [Hw _]; discriminate].
    split; [reflexivity | apply Hw]. }
  split; [apply worker_step_enabled|].
  split.
  { intros Hm. destruct (Hheld Hm) as [Hpc _].
    split; [exact Hpc|]. unfold step, worker_step.
    destruct (to_publish s) eqn:Htodo; rewrite ?Hpc, ?Hm;
      project; rewrite ?Htodo; split; reflexivity. }
  split.
  { intros Hpc. rewrite Hpc in Hw. apply Hw. }
  split.
  { intros j Hpc. rewrite Hpc in Hr. destruct Hr as [Hm Hcopy].
    destruct (Hheld Hm) as [_ Hslot]. now rewrite <- Hslot. }
  split.
  { intros Hpc. rewrite Hpc in Hr. destruct Hr as [Hm Hcopy].
    destruct (Hheld Hm) as [_ Hslot]. now rewrite <- Hslot. }
  split.
  { intros Hpc. rewrite Hpc in Hr. apply Hr. }
  intros v Hv. destruct Hhist as (done & -> & Hincl).
  apply in_or_app. left. now apply Hincl.
Qed.

End Facts.

(** The worker takes the mutex and assigns [[1; 2]] while the reader waits
    in [lock]; the reader then copies it; meanwhile the worker finds the
    mutex taken and skips [[3; 4]]. *)
Lemma publication_never_blocks_nor_tears_witness :
  let schedule :=
    [WorkerThread; GuiThread; WorkerThread; WorkerThread; WorkerThread;
     WorkerThread; GuiThread; GuiThread; WorkerThread; GuiThread; GuiThread;
     GuiThread] in
  let s := exec schedule (init [] [[1; 2]; [3; 4]]) in
  local_data s = [1; 2] /\ In (local_data s) (published s ++ [[]]).
Proof.
  intros schedule s. split; [reflexivity|].
  pose proof (@publication_never_blocks_nor_tears nat [] [[1; 2]; [3; 4]]
                schedule) as H.
  cbv zeta in H. apply H. reflexivity.
Defined.

End SnapshotChannelFacts.

(* ================================================================== *)
(** ** The phase accumulator in IEEE doubles

    The same definitions evaluated at [DoubleScalar], as the compiled
    program computes them. *)

Section Doubles.

#[local] Existing Instance DoubleScalar.

Local Open Scope float_scope.

Example double_phase_increment :
  phase_increment = 0x1.015bf9217271ap-4.
Proof. vm_compute. reflexivity. Qed.

(** An increment above [4 * M_PI] leaves the phase above [2 * M_PI]. *)
Example double_phase_after_large_increment :
  advance_phase 13 0 = 0x1.ade04abbbd2e8p+2 /\
  PrimFloat.ltb (advance_phase 13 0) (2 * M_PI) = false.
Proof. vm_compute. split; reflexivity. Qed.

(** The phase with which the tenth buffer starts: 2.0106192982956714, within
    2e-12 of [16 * PI / 25]. *)
Example double_phase_entering_tenth_pass :
  phase_after (9 * buff_size) phase_increment 0 = 0x1.015bf9217174dp+1.
Proof. vm_compute. reflexivity. Qed.

(** After twenty-five buffers (512 turns) the phase is just below
    [2 * M_PI], 2.3e-12 from the exact value: the hundredth step of a turn
    does not pass the strict test. *)
Example double_phase_after_twenty_five_buffers :
  phase_after (25 * buff_size) phase_increment 0 = 0x1.921fb54441719p+2 /\
  PrimFloat.ltb (phase_after (25 * buff_size) phase_increment 0) (2 * M_PI)
  = true.
Proof. vm_compute. split; reflexivity. Qed.

(** Positive and negative zero both give the low level. *)
Example double_square_level_zero :
  square_level 0 = -1 /\ square_level (-0) = -1.
Proof. vm_compute. split; reflexivity. Qed.

End Doubles.

(** The samples as the compiled program stores them: the platform's [cos]
    and [sin], the product with the amplitude in double, then the narrowing
    to [float]. *)
Section DoubleSamples.

Variables libm_cos libm_sin to_float : float -> float.

Local Open Scope float_scope.

Lemma double_sine_sample (amp inc ph : float) (buff : list (Sample float))
    (i : nat) :
  List.length buff = buff_size -> (i < buff_size)%nat ->
  nth_error
    (fst (@synthesize float DoubleScalar
            (DoubleTrig libm_cos libm_sin to_float) 0 amp inc buff ph)) i
  = Some (to_float (libm_cos (@phase_after float DoubleScalar i inc ph) * amp),
          to_float (libm_sin (@phase_after float DoubleScalar i inc ph) * amp)).
Proof.
  intros Hlen Hi. now rewrite synthesize_nth.
Qed.

Lemma double_square_sample (amp inc ph : float) (buff : list (Sample float))
    (i : nat) :
  List.length buff = buff_size -> (i < buff_size)%nat ->
  nth_error
    (fst (@synthesize float DoubleScalar
            (DoubleTrig libm_cos libm_sin to_float) 1 amp inc buff ph)) i
  = Some
      (to_float
         (@square_level float DoubleScalar
            (libm_cos (@phase_after float DoubleScalar i inc ph)) * amp),
       to_float
         (@square_level float DoubleScalar
            (libm_sin (@phase_after float DoubleScalar i inc ph)) * amp)).
Proof.
  intros Hlen Hi. now rewrite synthesize_nth.
Qed.

End DoubleSamples.

(* ================================================================== *)
(** ** What a pass and a run do to buffer, phase, snapshot and flag *)

Section RunViews.

Context {T : Type} {SC : Scalar T} {TR : Trig T}.

Implicit Types (d : Driver T) (c : Cycle T) (s : RunState T)
  (e : Env T) (w : Worker T).

#[local] Arguments synthesize : simpl never.
#[local] Arguments synthesized : simpl never.
#[local] Arguments buff_size : simpl never.

Lemma pass_buffer_length c (ph : T) :
  List.length (pass_buffer c ph) = buff_size.
Proof. apply samples_from_length. Qed.

(** Whatever becomes of its send, a pass synthesizes its buffer, advances the
    phase by one buffer, leaves the flag alone, and either leaves the
    snapshot alone or replaces it by the buffer. *)
Lemma cycle_view d c s :
  List.length (buff s) = buff_size ->
  buff (snd (cycle d c s)) = pass_buffer c (phase s) /\
  phase (snd (cycle d c s)) = phase_after buff_size phase_increment (phase s) /\
  hardware_connected (snd (cycle d c s)) = hardware_connected s /\
  (shared_buffer (snd (cycle d c s)) = shared_buffer s \/
   shared_buffer (snd (cycle d c s)) = pass_buffer c (phase s)) /\
  (fst (cycle d c s) = Ok tt ->
   shared_buffer (snd (cycle d c s))
   = if try_lock c then pass_buffer c (phase s) else shared_buffer s).
Proof.
  intros Hlen. unfold pass_buffer.
  rewrite <- (synthesized_buff c s Hlen), <- (synthesized_phase c s Hlen).
  destruct (hardware_connected s) eqn:Hhc.
  - destruct (tx_stream s) eqn:Hptr.
    + destruct (send_ok d (sends s)) eqn:Hok.
      * rewrite cycle_sends by assumption. cbn [fst snd].
        rewrite after_send_buff, after_send_phase,
          after_send_hardware_connected.
        unfold after_send, published.
        destruct (try_lock c); cbn; auto 6.
      * rewrite cycle_throws by assumption. cbn [fst snd].
        repeat split; auto; discriminate.
    + rewrite cycle_faults by assumption. cbn [fst snd].
      repeat split; auto; discriminate.
  - rewrite cycle_sleeps by assumption. cbn [fst snd].
    rewrite after_sleep_buff, after_sleep_phase,
      after_sleep_hardware_connected, after_sleep_shared_buffer.
    destruct (try_lock c); auto 6.
Qed.

(** The loop in the same terms, however it ends: it got through some number
    [k] of buffers. *)
Lemma loop_view d cs : forall s,
  List.length (buff s) = buff_size ->
  List.length (buff (snd (loop d cs s))) = buff_size /\
  hardware_connected (snd (loop d cs s)) = hardware_connected s /\
  (shared_buffer (snd (loop d cs s)) = shared_buffer s \/
   List.length (shared_buffer (snd (loop d cs s))) = buff_size) /\
  exists k,
    k <= List.length cs /\
    phase (snd (loop d cs s))
    = phase_after (k * buff_size) phase_increment (phase s).
Proof.
  induction cs as [|c cs IH]; intros s Hlen.
  - cbn. repeat split; auto. exists 0. split; [lia | reflexivity].
  - rewrite loop_cons.
    destruct (cycle_view d c s Hlen) as (Hb & Hp & Hf & Hs & _).
    assert (Hlen' : List.length (buff (snd (cycle d c s))) = buff_size)
      by (rewrite Hb; apply pass_buffer_length).
    assert (Hone : phase (snd (cycle d c s))
                   = phase_after (1 * buff_size) phase_increment (phase s))
      by (rewrite Hp, Nat.mul_1_l; reflexivity).
    assert (Hsnap : shared_buffer (snd (cycle d c s)) = shared_buffer s \/
                    List.length (shared_buffer (snd (cycle d c s)))
                    = buff_size)
      by (destruct Hs as [-> | ->]; [now left | right;
          apply pass_buffer_length]).
    destruct (cycle d c s) as [[[]| |] s1]; cbn [snd] in *.
    + destruct (IH s1 Hlen') as (Hb2 & Hf2 & Hs2 & k & Hk & Hp2).
      repeat split; [exact Hb2 | congruence | |].
      * destruct Hs2 as [Heq | Hl]; [rewrite Heq; exact Hsnap | now right].
      * exists (S k). split; [cbn; lia|].
        rewrite Hp2, Hp. cbn [Nat.mul].
        now rewrite phase_after_add.
    + repeat split; auto. exists 1. split; [cbn; lia | exact Hone].
    + repeat split; auto. exists 1. split; [cbn; lia | exact Hone].
Qed.

(** The loop when it runs to its end. *)
Lemma loop_ok_view d cs : forall s s',
  List.length (buff s) = buff_size ->
  loop d cs s = (Ok tt, s') ->
  List.length (buff s') = buff_size /\
  phase s'
  = phase_after (List.length cs * buff_size) phase_increment (phase s) /\
  (Forall (fun c => try_lock c = false) cs ->
   shared_buffer s' = shared_buffer s).
Proof.
  induction cs as [|c cs IH]; intros s s' Hlen Hloop.
  - injection Hloop as <-. auto.
  - rewrite loop_cons in Hloop.
    destruct (cycle_view d c s Hlen) as (Hb & Hp & _ & _ & Hs).
    destruct (cycle d c s) as [[[]| |] s1]; cbn [fst snd] in *;
      try discriminate.
    assert (Hlen' : List.length (buff s1) = buff_size)
      by (rewrite Hb; apply pass_buffer_length).
    destruct (IH s1 s' Hlen' Hloop) as (Hb2 & Hp2 & Hs2).
    repeat split; [exact Hb2 | |].
    + rewrite Hp2, Hp. cbn [List.length Nat.mul].
      now rewrite phase_after_add.
    + intros Hall. inversion Hall as [|? ? Hc Hrest]; subst.
      rewrite (Hs2 Hrest), (Hs eq_refl), Hc. reflexivity.
Qed.

Lemma loop_app_ok d cs cs' s s' :
  loop d (cs ++ cs') s = (Ok tt, s') ->
  exists s1, loop d cs s = (Ok tt, s1) /\ loop d cs' s1 = (Ok tt, s').
Proof.
  revert s. induction cs as [|c cs IH]; intros s Hloop.
  - exists s. split; [reflexivity | exact Hloop].
  - cbn [app] in Hloop. rewrite loop_cons in *.
    destruct (cycle d c s) as [[[]| |] s1]; try discriminate.
    exact (IH s1 Hloop).
Qed.

(** The snapshot after a loop that ran to its end: the buffer of the last
    pass that found the mutex free. *)
Lemma loop_ok_snapshot d pre c post s s' :
  List.length (buff s) = buff_size ->
  loop d (pre ++ c :: post) s = (Ok tt, s') ->
  try_lock c = true ->
  Forall (fun c' => try_lock c' = false) post ->
  shared_buffer s'
  = pass_buffer c
      (phase_after (List.length pre * buff_size) phase_increment (phase s)).
Proof.
  intros Hlen Hloop Hlock Hpost.
  destruct (@loop_app_ok d pre (c :: post) s s' Hloop) as (s1 & Hpre & Hrest).
  destruct (@loop_ok_view d pre s s1 Hlen Hpre) as (Hlen1 & Hp1 & _).
  rewrite loop_cons in Hrest.
  destruct (cycle_view d c s1 Hlen1) as (Hb & _ & _ & _ & Hs).
  destruct (cycle d c s1) as [[[]| |] s2]; cbn [fst snd] in *;
    try discriminate.
  assert (Hlen2 : List.length (buff s2) = buff_size)
    by (rewrite Hb; apply pass_buffer_length).
  destruct (@loop_ok_view d post s2 s' Hlen2 Hrest) as (_ & _ & Hkeep).
  rewrite (Hkeep Hpost), (Hs eq_refl), Hlock, Hp1. reflexivity.
Qed.

Lemma end_burst_view d s :
  shared_buffer (snd (end_burst d s)) = shared_buffer s /\
  hardware_connected (snd (end_burst d s)) = hardware_connected s /\
  phase (snd (end_burst d s)) = phase s.
Proof.
  unfold end_burst, send. unfold_monad.
  destruct (hardware_connected s) eqn:Hhc; [| cbn; auto].
  cbn [tx_stream set_md]. destruct (tx_stream s); cbn; [| auto].
  destruct (send_ok d (sends s)); cbn; auto.
Qed.

(** [run] that returns: its loop and its closing frame returned. *)
Lemma run_ok_inv d e w s' :
  run d e w = (Ok tt, s') ->
  exists s1,
    loop d (cycles e)
      (after_connect d (device_args w) (at_connect e) (enter w))
    = (Ok tt, s1) /\
    end_burst d s1 = (Ok tt, s').
Proof.
  rewrite run_unfold.
  destruct (loop d (cycles e) _) as [[[]| |] s1]; try discriminate.
  intros H. now exists s1.
Qed.

End RunViews.

(* ================================================================== *)
(** ** Sessions and restarts *)

Section SessionFacts.

Context {T : Type} {SC : Scalar T} {TR : Trig T}.

Implicit Types (d : Driver T) (c : Cycle T) (s : RunState T)
  (e : Env T) (w : Worker T).

#[local] Arguments synthesize : simpl never.
#[local] Arguments synthesized : simpl never.
#[local] Arguments buff_size : simpl never.

Lemma connect_events_empty d (r : Registers T) args :
  isEmpty args = true -> connect_events d args r = [].
Proof. intros H. unfold connect_events. now rewrite H. Qed.

(** X1.  Started without a device identifier on a worker whose
    [hardware_connected] is clear, [run] returns normally and makes no
    driver call at all: it sleeps 2000 microseconds once in each pass of
    the loop and does nothing else outside the process. *)
Theorem simulation_never_calls_driver d e w :
  isEmpty (device_args w) = true ->
  w_hardware_connected w = false ->
  fst (run d e w) = Ok tt /\
  trace (snd (run d e w)) = repeat (EvSleep 2000) (List.length (cycles e)).
Proof.
  intros Hargs Hflag.
  rewrite run_simulated by (cbn; now rewrite Hargs).
  cbn [fst snd]. split; [reflexivity|].
  rewrite sleep_through_trace. cbn [trace after_connect enter app].
  now rewrite connect_events_empty.
Qed.

(** X2.  [run] writes [hardware_connected] in the connection attempt and
    nowhere else.  However the run ends, the flag it leaves is: with a
    device identifier, whether every step of the attempt returned; without
    one, the value the previous run left. *)
Theorem hardware_flag_set_only_by_connect d e w :
  hardware_connected (snd (run d e w))
  = if isEmpty (device_args w) then w_hardware_connected w
    else connect_succeeds d (device_args w) (at_connect e).
Proof.
  rewrite run_unfold.
  set (s0 := after_connect d (device_args w) (at_connect e) (enter w)).
  assert (Hlen : List.length (buff s0) = buff_size)
    by apply enter_buff_length.
  destruct (loop_view d (cycles e) s0 Hlen) as (_ & Hflag & _).
  destruct (loop d (cycles e) s0) as [[[]| |] s1]; cbn [snd] in *;
    [destruct (end_burst_view d s1) as (_ & -> & _) | |];
    rewrite Hflag; reflexivity.
Qed.

(** X3.  A session on hardware that ends normally leaves
    [hardware_connected] set.  A following session started on the entry
    without identifier skips the connection attempt, finds the flag set and
    the stream pointer of the new run null, and faults at its first send. *)
Theorem simulation_after_hardware_faults d e (args : string) w d' e' :
  connect_succeeds d args (at_connect e) = true ->
  (forall k, k <= List.length (cycles e) -> send_ok d k = true) ->
  fst (toggled_session d e args w) = Ok tt /\
  w_hardware_connected (snd (toggled_session d e args w)) = true /\
  fst (toggled_session d' e' simulation_mode
         (snd (toggled_session d e args w))) = Fault.
Proof.
  intros Hconn Hok. unfold toggled_session. cbn [fst snd].
  assert (Hrun : run d e (select args w)
                 = (Ok tt,
                    after_end_burst
                      (send_through (cycles e)
                         (after_connect d args (at_connect e)
                            (enter (select args w))))))
    by now apply run_streaming.
  assert (Hflag : hardware_connected (snd (run d e (select args w))) = true).
  { rewrite Hrun. cbn [snd]. unfold after_end_burst.
    cbn [hardware_connected count_send log set_md].
    rewrite send_through_hardware_connected. cbn [hardware_connected after_connect].
    now rewrite (connect_succeeds_not_empty _ _ _ Hconn). }
  split; [| split].
  - now rewrite Hrun.
  - exact Hflag.
  - apply run_with_stale_flag_faults; [reflexivity | exact Hflag].
Qed.

(** X4.  When [run] returns, [shared_buffer] holds the buffer of the last
    pass that found [data_mutex] free, synthesized at the phase reached
    after all the passes before it; if no pass found the mutex free it
    holds what it held before the run. *)
Theorem snapshot_is_last_unlocked_pass d e w s' :
  run d e w = (Ok tt, s') ->
  (Forall (fun c => try_lock c = false) (cycles e) ->
   shared_buffer s' = w_shared_buffer w) /\
  (forall pre c post,
     cycles e = pre ++ c :: post ->
     try_lock c = true ->
     Forall (fun c' => try_lock c' = false) post ->
     shared_buffer s'
     = pass_buffer c
         (phase_after (List.length pre * buff_size) phase_increment (lit 0))).
Proof.
  intros Hrun.
  destruct (@run_ok_inv _ _ _ d e w s' Hrun) as (s1 & Hloop & Hend).
  pose proof (end_burst_view d s1) as (Hs & _ & _).
  rewrite Hend in Hs. cbn [snd] in Hs. rewrite Hs.
  set (s0 := after_connect d (device_args w) (at_connect e) (enter w)) in *.
  assert (Hlen : List.length (buff s0) = buff_size)
    by apply enter_buff_length.
  split.
  - intros Hall.
    destruct (@loop_ok_view _ _ _ d (cycles e) s0 s1 Hlen Hloop)
      as (_ & _ & Hkeep).
    now rewrite (Hkeep Hall).
  - intros pre c post Hcs Hlock Hpost. rewrite Hcs in Hloop.
    now rewrite (@loop_ok_snapshot _ _ _ d pre c post s0 s1).
Qed.

(** X5.  However the run ends, [shared_buffer] is either what it was before
    the run or a buffer of exactly [buff_size] samples: a pass stores a
    whole synthesized buffer or nothing. *)
Theorem snapshot_is_whole_or_untouched d e w :
  shared_buffer (snd (run d e w)) = w_shared_buffer w \/
  List.length (shared_buffer (snd (run d e w))) = buff_size.
Proof.
  rewrite run_unfold.
  set (s0 := after_connect d (device_args w) (at_connect e) (enter w)).
  assert (Hlen : List.length (buff s0) = buff_size)
    by apply enter_buff_length.
  destruct (loop_view d (cycles e) s0 Hlen) as (_ & _ & Hsnap & _).
  destruct (loop d (cycles e) s0) as [[[]| |] s1]; cbn [snd] in *;
    [destruct (end_burst_view d s1) as (-> & _ & _) | |];
    exact Hsnap.
Qed.

(** However the run ends, its phase is the phase after some whole number of
    buffers, at most one for each pass. *)
Lemma run_phase d e w :
  exists k,
    k <= List.length (cycles e) /\
    phase (snd (run d e w))
    = phase_after (k * buff_size) phase_increment (lit 0).
Proof.
  rewrite run_unfold.
  set (s0 := after_connect d (device_args w) (at_connect e) (enter w)).
  assert (Hlen : List.length (buff s0) = buff_size)
    by apply enter_buff_length.
  destruct (loop_view d (cycles e) s0 Hlen) as (_ & _ & _ & k & Hk & Hp).
  exists k. split; [exact Hk|].
  destruct (loop d (cycles e) s0) as [[[]| |] s1]; cbn [snd] in *;
    [destruct (end_burst_view d s1) as (_ & _ & ->) | |];
    exact Hp.
Qed.

(** *** The stream handed to the driver *)

Lemma samples_from_app (type : Z) (amp increment : T) (n m : nat) :
  forall ph,
    samples_from type amp increment ph (n + m)
    = samples_from type amp increment ph n
      ++ samples_from type amp increment (phase_after n increment ph) m.
Proof.
  induction n as [|n IH]; intros ph; [reflexivity|].
  cbn [Nat.add]. rewrite !samples_from_S, IH. reflexivity.
Qed.

Lemma payloads_app (tr tr' : list (Event T)) :
  payloads (tr ++ tr') = payloads tr ++ payloads tr'.
Proof.
  induction tr as [|ev tr IH]; [reflexivity|].
  destruct ev; cbn [app payloads]; rewrite IH; reflexivity.
Qed.

Lemma payloads_connect_events d args (r : Registers T) :
  payloads (connect_events d args r) = [].
Proof.
  unfold connect_events.
  repeat match goal with
         | |- context [if ?b then _ else _] => destruct b; cbn
         end; reflexivity.
Qed.

Lemma send_through_stream (type : Z) (amp : T) cs : forall s,
  List.length (buff s) = buff_size ->
  Forall (fun c => amplitude (regs c) = amp /\ waveform_type (regs c) = type)
    cs ->
  List.concat (payloads (trace (send_through cs s)))
  = List.concat (payloads (trace s))
    ++ samples_from type amp phase_increment (phase s)
         (List.length cs * buff_size).
Proof.
  induction cs as [|c cs IH]; intros s Hlen Hall.
  - cbn. now rewrite app_nil_r.
  - inversion Hall as [|? ? [Hamp Htype] Hrest]; subst.
    rewrite send_through_cons, IH; [| | exact Hrest].
    + rewrite after_send_trace, payloads_app, List.concat_app.
      cbn [payloads List.concat]. rewrite app_nil_r, <- app_assoc. f_equal.
      rewrite after_send_phase, synthesized_phase, synthesized_buff
        by assumption.
      cbn [List.length Nat.mul]. now rewrite samples_from_app.
    + rewrite after_send_buff. now apply synthesized_buff_length.
Qed.

(** X6.  In a session on hardware whose sends return, with amplitude and
    waveform selector unchanged throughout, the samples handed to the
    driver, put end to end, are one waveform started at phase 0: the
    accumulator carries over from each buffer to the next, so nothing is
    skipped or repeated at a buffer boundary. *)
Theorem transmitted_stream_is_continuous d e w (amp : T) (type : Z) :
  connect_succeeds d (device_args w) (at_connect e) = true ->
  (forall k, k <= List.length (cycles e) -> send_ok d k = true) ->
  Forall (fun c => amplitude (regs c) = amp /\ waveform_type (regs c) = type)
    (cycles e) ->
  List.concat (payloads (trace (snd (run d e w))))
  = samples_from type amp phase_increment (lit 0)
      (List.length (cycles e) * buff_size).
Proof.
  intros Hconn Hok Hall.
  rewrite run_streaming by assumption. cbn [snd].
  unfold after_end_burst. cbn [trace count_send log set_md].
  rewrite payloads_app, List.concat_app. cbn [payloads List.concat].
  rewrite !app_nil_r.
  rewrite (@send_through_stream type amp) by
    (try apply enter_buff_length; assumption).
  cbn [trace phase after_connect enter app].
  now rewrite payloads_connect_events.
Qed.

End SessionFacts.

Lemma simulation_never_calls_driver_witness :
  trace (snd (run healthy_driver (session 1 0 3)
                (fresh_worker simulation_mode)))
  = [EvSleep 2000; EvSleep 2000; EvSleep 2000].
Proof.
  apply (@simulation_never_calls_driver R _ _ healthy_driver (session 1 0 3)
           (fresh_worker simulation_mode)); reflexivity.
Defined.

Lemma simulation_after_hardware_faults_witness :
  fst (toggled_session healthy_driver (session 1 0 2) simulation_mode
         (snd (toggled_session healthy_driver (session 1 0 3) b200
                 (fresh_worker simulation_mode))))
  = Fault.
Proof.
  apply (@simulation_after_hardware_faults R _ _ healthy_driver
           (session 1 0 3) b200 (fresh_worker simulation_mode)
           healthy_driver (session 1 0 2)).
  - reflexivity.
  - intros k _. reflexivity.
Defined.

Lemma snapshot_is_last_unlocked_pass_witness :
  shared_buffer
    (snd (run healthy_driver (session 1 0 3) (fresh_worker simulation_mode)))
  = pass_buffer (quiet_pass 1 0)
      (phase_after (2 * buff_size) phase_increment 0%R).
Proof.
  assert (Hrun : run healthy_driver (session 1 0 3)
                   (fresh_worker simulation_mode)
                 = (Ok tt,
                    snd (run healthy_driver (session 1 0 3)
                           (fresh_worker simulation_mode))))
    by (rewrite run_simulated; reflexivity).
  destruct (@snapshot_is_last_unlocked_pass R _ _ healthy_driver
              (session 1 0 3) (fresh_worker simulation_mode) _ Hrun)
    as [_ Hlast].
  apply (Hlast [quiet_pass 1 0; quiet_pass 1 0] (quiet_pass 1 0) []);
    [reflexivity | reflexivity | constructor].
Defined.

Lemma transmitted_stream_is_continuous_witness :
  List.concat
    (payloads
       (trace (snd (run healthy_driver (session 1 0 3) (fresh_worker b200)))))
  = samples_from 0 1%R phase_increment 0%R (3 * buff_size).
Proof.
  assert (Hregs : Forall (fun c : Cycle R =>
                            amplitude (regs c) = 1%R /\
                            waveform_type (regs c) = 0%Z)
                    (cycles (session 1 0 3)))
    by repeat constructor.
  exact (@transmitted_stream_is_continuous R _ _ healthy_driver
           (session 1 0 3) (fresh_worker b200) 1%R 0%Z eq_refl
           (fun k _ => eq_refl) Hregs).
Defined.

(* ================================================================== *)
(** ** The run in exact arithmetic *)

Section ExactRun.

Local Open Scope R_scope.

#[local] Arguments synthesize : simpl never.
#[local] Arguments buff_size : simpl never.

(** X7.  However a run ends and however many passes it makes, its phase
    accumulator lies in [[0, 2 * PI]]: the single subtraction after each
    sample is enough for the worker's increment. *)
Theorem run_phase_stays_within_a_turn (d : Driver R) (e : Env R)
    (w : Worker R) :
  0 <= phase (snd (run d e w)) <= 2 * PI.
Proof.
  destruct (run_phase d e w) as (k & _ & ->).
  pose proof PI_RGT_0 as Hpi.
  apply phase_after_range; rewrite ?phase_increment_real; cbn; lra.
Qed.

Lemma phase_period (k : nat) :
  phase_after (S k + 100) (PI / 50) 0 = phase_after (S k) (PI / 50) 0.
Proof.
  rewrite !phase_from_zero by lia. do 3 f_equal.
  replace (Z.of_nat (S k + 100) - 1)%Z
    with (Z.of_nat (S k) - 1 + 1 * 100)%Z by lia.
  apply Z.mod_add. discriminate.
Qed.

Lemma phase_after_first_period :
  phase_after 100 (PI / 50) 0 = 2 * PI.
Proof.
  rewrite phase_from_zero by lia.
  replace ((Z.of_nat 100 - 1) mod 100 + 1)%Z with 100%Z by reflexivity.
  lra.
Qed.

Lemma sine_sample_full_turn (amp : R) :
  gen_sample 0 amp (2 * PI) = gen_sample 0 amp 0.
Proof.
  rewrite !gen_sample_sine. now rewrite cos_2PI, sin_2PI, cos_0, sin_0.
Qed.

(** Whole turns taken off the phase do not show in a SINE sample. *)
Lemma sine_sample_turns (amp theta : R) (j : nat) :
  gen_sample 0 amp (theta - INR j * (2 * PI)) = gen_sample 0 amp theta.
Proof.
  rewrite !gen_sample_sine.
  rewrite <- (cos_period (theta - INR j * (2 * PI)) j).
  rewrite <- (sin_period (theta - INR j * (2 * PI)) j).
  replace (theta - INR j * (2 * PI) + 2 * INR j * PI) with theta by lra.
  reflexivity.
Qed.

(** X8.  With the SINE waveform the synthesized stream is the 10 kHz tone
    at 1 MS/s: sample [k] is the point of the circle of radius [amp] at
    angle [k * PI / 50], from the very first sample on, and the stream
    repeats every 100 samples.  (The SQUARE levels jump where cosine or
    sine change sign, which is where a phase that is off by a rounding
    error can fall on the other side; they are left out.) *)
Theorem sine_tone_repeats_every_hundred_samples (amp : R) (n k : nat) :
  (k + 100 < n)%nat ->
  nth_error (samples_from 0 amp phase_increment 0 n) k
  = Some (amp * cos (INR k * (PI / 50)), amp * sin (INR k * (PI / 50))) /\
  nth_error (samples_from 0 amp phase_increment 0 n) (k + 100)
  = nth_error (samples_from 0 amp phase_increment 0 n) k.
Proof.
  intros Hk. rewrite !samples_from_nth by lia.
  rewrite phase_increment_real. split.
  - destruct (phase_after_congruent k (PI / 50) 0) as [j ->].
    rewrite sine_sample_turns, gen_sample_sine.
    now replace (0 + INR k * (PI / 50)) with (INR k * (PI / 50)) by lra.
  - f_equal. destruct k as [|k].
    + cbn [Nat.add]. rewrite phase_after_first_period.
      cbn [phase_after]. apply sine_sample_full_turn.
    + now rewrite phase_period.
Qed.

Lemma square_parts (type : Z) (amp theta re im : R) :
  type <> 0%Z ->
  gen_sample type amp theta = (re, im) ->
  (re = amp \/ re = - amp) /\ (im = amp \/ im = - amp).
Proof.
  intros Htype. rewrite gen_sample_square by assumption.
  rewrite !square_level_real. intros [= <- <-].
  destruct (Rgt_dec (cos theta) 0), (Rgt_dec (sin theta) 0); split; lra.
Qed.

(** X9.  When the waveform selector is not SINE in the last pass of a run
    that returns, and that pass finds the mutex free, every sample of the
    snapshot is [amp] or [- amp] in both parts, [amp] being the amplitude
    of that pass: a change of waveform or amplitude takes effect on a whole
    buffer, whatever the earlier passes synthesized. *)
Theorem switched_waveform_fills_whole_buffer (d : Driver R) (e : Env R)
    (w : Worker R) (s' : RunState R) (pre : list (Cycle R)) (c : Cycle R) :
  run d e w = (Ok tt, s') ->
  cycles e = pre ++ [c] ->
  try_lock c = true ->
  waveform_type (regs c) <> 0%Z ->
  forall re im,
    In (re, im) (shared_buffer s') ->
    (re = amplitude (regs c) \/ re = - amplitude (regs c)) /\
    (im = amplitude (regs c) \/ im = - amplitude (regs c)).
Proof.
  intros Hrun Hcs Hlock Htype re im Hin.
  destruct (@run_ok_inv _ _ _ d e w s' Hrun) as (s1 & Hloop & Hend).
  pose proof (end_burst_view d s1) as (Hs & _ & _).
  rewrite Hend in Hs. cbn [snd] in Hs. rewrite Hs in Hin.
  rewrite Hcs in Hloop.
  set (s0 := after_connect d (device_args w) (at_connect e) (enter w)) in *.
  assert (Hsnap : shared_buffer s1
                  = pass_buffer c
                      (phase_after (List.length pre * buff_size)
                         phase_increment (phase s0))).
  { apply (@loop_ok_snapshot _ _ _ d pre c [] s0 s1);
      [apply enter_buff_length | exact Hloop | exact Hlock | constructor]. }
  rewrite Hsnap in Hin. unfold pass_buffer, samples_from in Hin.
  apply in_map_iff in Hin. destruct Hin as (i & Hsample & _).
  exact (square_parts _ _ Htype Hsample).
Qed.

(** With an amplitude in [[0, 1]] no part of a sample leaves [[-1, 1]]. *)
Lemma gen_sample_bounded (type : Z) (amp theta re im : R) :
  0 <= amp <= 1 ->
  gen_sample type amp theta = (re, im) ->
  -1 <= re <= 1 /\ -1 <= im <= 1.
Proof.
  intros Hamp Hgen.
  destruct (Z.eq_dec type 0) as [-> | Htype].
  - rewrite gen_sample_sine in Hgen. injection Hgen as <- <-.
    pose proof (COS_bound theta). pose proof (SIN_bound theta).
    split; nra.
  - destruct (square_parts _ _ Htype Hgen) as [[-> | ->] [-> | ->]];
      split; lra.
Qed.

End ExactRun.

Lemma sine_tone_repeats_every_hundred_samples_witness :
  nth_error (samples_from 0 1%R phase_increment 0%R buff_size) 5
  = Some ((1 * cos (INR 5 * (PI / 50)))%R, (1 * sin (INR 5 * (PI / 50)))%R) /\
  nth_error (samples_from 0 1%R phase_increment 0%R buff_size) (5 + 100)
  = nth_error (samples_from 0 1%R phase_increment 0%R buff_size) 5.
Proof.
  apply (@sine_tone_repeats_every_hundred_samples 1%R buff_size 5).
  unfold buff_size. lia.
Defined.

Lemma switched_waveform_fills_whole_buffer_witness :
  Forall
    (fun p : Sample R =>
       (fst p = (1 / 2)%R \/ fst p = (- (1 / 2))%R) /\
       (snd p = (1 / 2)%R \/ snd p = (- (1 / 2))%R))
    (shared_buffer
       (snd (run healthy_driver
               {| at_connect := registers_with 1 0;
                  cycles := [quiet_pass 1 0; quiet_pass (1 / 2) 1] |}
               (fresh_worker simulation_mode)))).
Proof.
  apply Forall_forall. intros [re im] Hin. cbn [fst snd].
  refine (@switched_waveform_fills_whole_buffer healthy_driver
            {| at_connect := registers_with 1 0;
               cycles := [quiet_pass 1 0; quiet_pass (1 / 2) 1] |}
            (fresh_worker simulation_mode) _ [quiet_pass 1 0]
            (quiet_pass (1 / 2) 1) _ eq_refl eq_refl _ re im Hin).
  - rewrite run_simulated; reflexivity.
  - discriminate.
Defined.

(* ================================================================== *)
(** ** The plot *)

Module GuiFacts.

Import Gui.

Section PlotFacts.

Context {T : Type}.

Implicit Types (g : Plot T) (data : list (Sample T)).

Lemma combine_snoc {X Y : Type} (l : list X) (l' : list Y) (x : X) (y : Y) :
  List.length l = List.length l' ->
  combine (l ++ [x]) (l' ++ [y]) = combine l l' ++ [(x, y)].
Proof.
  revert l'. induction l as [|a l IH]; intros [|b l'] Hlen;
    try discriminate; [reflexivity|].
  cbn. f_equal. apply IH. now injection Hlen.
Qed.

Lemma in_firstn_in {X : Type} (m : nat) (l : list X) (x : X) :
  In x (firstn m l) -> In x l.
Proof.
  revert l. induction m as [|m IH]; intros [|a l] Hin;
    try contradiction.
  destruct Hin as [-> | Hin]; [now left | right; now apply IH].
Qed.

Lemma numbered_S (part : Sample T -> T) (m : nat) data (x : Sample T) :
  nth_error data m = Some x ->
  numbered part (S m) data = numbered part m data ++ [(Z.of_nat m, part x)].
Proof.
  intros Hnth. unfold numbered.
  assert (Hm : m < List.length data)
    by (apply nth_error_Some; congruence).
  rewrite seq_S, map_app, (SnapshotChannelFacts.firstn_snoc _ _ Hnth), map_app.
  cbn [Nat.add map]. apply combine_snoc.
  rewrite !length_map, length_seq, length_firstn. lia.
Qed.

(** The loop from position [i] on, while it stays inside the data. *)
Lemma plot_loop_spec (todo : nat) data : forall (i : nat) pI pQ,
  i + todo <= List.length data ->
  pI = numbered fst i data -> pQ = numbered snd i data ->
  plot_loop todo (Z.of_nat i) data pI pQ
  = Some (numbered fst (i + todo) data, numbered snd (i + todo) data).
Proof.
  induction todo as [|k IH]; intros i pI pQ Hin HI HQ.
  - cbn. now rewrite Nat.add_0_r, HI, HQ.
  - cbn [plot_loop]. rewrite Nat2Z.id.
    destruct (nth_error data i) as [x|] eqn:Hnth.
    + replace (Z.of_nat i + 1)%Z with (Z.of_nat (S i)) by lia.
      rewrite (IH (S i)).
      * now replace (S i + k) with (i + S k) by lia.
      * lia.
      * rewrite HI. symmetry. now apply numbered_S.
      * rewrite HQ. symmetry. now apply numbered_S.
    + apply nth_error_None in Hnth. lia.
Qed.

Lemma to_int_small (n : nat) :
  (Z.of_nat n < 2147483648)%Z -> to_int n = Z.of_nat n.
Proof.
  intros Hn. unfold to_int.
  rewrite Z.mod_small by lia.
  destruct (Z.ltb_spec (Z.of_nat n) 2147483648); lia.
Qed.

(** Whatever [int] the size turns into, the loop bound stays within the
    data. *)
Lemma limit_within (n : nat) :
  Z.to_nat (Z.min (to_int n) 500) <= n.
Proof.
  unfold to_int.
  pose proof (Z.mod_pos_bound (Z.of_nat n) 4294967296 eq_refl) as Hm.
  assert (Hle : (Z.of_nat n mod 4294967296 <= Z.of_nat n)%Z)
    by (apply Z.mod_le; lia).
  destruct (Z.ltb_spec (Z.of_nat n mod 4294967296) 2147483648); lia.
Qed.

Lemma updatePlot_plots g data :
  isPaused g = false -> data <> [] ->
  (Z.of_nat (List.length data) < 2147483648)%Z ->
  updatePlot g data
  = Some {| isPaused := false;
            seriesI := numbered fst (Nat.min (List.length data) 500) data;
            seriesQ := numbered snd (Nat.min (List.length data) 500) data |}.
Proof.
  intros Hp Hne Hsmall. unfold updatePlot. rewrite Hp.
  destruct data as [|x rest] eqn:Hdata; [now contradiction Hne|].
  rewrite <- Hdata in *.
  pose proof (limit_within (List.length data)) as Hlim.
  pose proof (@plot_loop_spec _ data 0 [] [] Hlim eq_refl eq_refl) as Hloop.
  cbn [Z.of_nat Nat.add] in Hloop. rewrite Hloop.
  rewrite to_int_small by assumption.
  now replace (Z.to_nat (Z.min (Z.of_nat (List.length data)) 500))
    with (Nat.min (List.length data) 500) by lia.
Qed.

Lemma numbered_length (part : Sample T -> T) (m : nat) data :
  m <= List.length data -> List.length (numbered part m data) = m.
Proof.
  intros Hm. unfold numbered.
  rewrite length_combine, !length_map, length_seq, length_firstn. lia.
Qed.

(** X10.  [updatePlot] never reads past the end of the data, whatever its
    size.  Paused, or with nothing published yet, it leaves both series as
    they are.  Otherwise (for fewer than 2^31 samples) it replaces the
    series by the first [min (size, 500)] samples, numbered from 0: the real
    parts in [seriesI], the imaginary parts in [seriesQ]. *)
Theorem updatePlot_spec g data :
  exists g',
    updatePlot g data = Some g' /\
    (isPaused g = true \/ data = [] -> g' = g) /\
    (isPaused g = false -> data <> [] ->
     (Z.of_nat (List.length data) < 2147483648)%Z ->
     isPaused g' = false /\
     seriesI g' = numbered fst (Nat.min (List.length data) 500) data /\
     seriesQ g' = numbered snd (Nat.min (List.length data) 500) data).
Proof.
  unfold updatePlot. destruct (isPaused g) eqn:Hp.
  - exists g. split; [reflexivity|]. split; [reflexivity | discriminate].
  - destruct data as [|x rest] eqn:Hdata.
    + exists g. split; [reflexivity|]. split; [reflexivity|].
      intros _ Hne. exfalso. now apply Hne.
    + rewrite <- Hdata.
      pose proof (limit_within (List.length data)) as Hlim.
      pose proof (@plot_loop_spec _ data 0 [] [] Hlim eq_refl eq_refl)
        as Hloop.
      cbn [Z.of_nat Nat.add] in Hloop. rewrite Hloop.
      eexists. split; [reflexivity|]. split.
      * intros [Hc | Hc]; [discriminate | subst; discriminate].
      * intros _ _ Hsmall. cbn [isPaused seriesI seriesQ].
        rewrite to_int_small by assumption.
        replace (Z.to_nat (Z.min (Z.of_nat (List.length data)) 500))
          with (Nat.min (List.length data) 500) by lia.
        auto.
Qed.

Lemma numbered_in (part : Sample T -> T) (m : nat) data (x : Z) (y : T) :
  In (x, y) (numbered part m data) ->
  (0 <= x < Z.of_nat m)%Z /\ exists p, In p data /\ y = part p.
Proof.
  unfold numbered. intros Hin.
  pose proof (in_combine_l _ _ _ _ Hin) as Hx.
  pose proof (in_combine_r _ _ _ _ Hin) as Hy.
  apply in_map_iff in Hx. destruct Hx as (i & <- & Hi).
  apply in_seq in Hi.
  apply in_map_iff in Hy. destruct Hy as (p & <- & Hp).
  split; [lia|]. exists p. split; [| reflexivity].
  now apply in_firstn_in with m.
Qed.

End PlotFacts.

Lemma updatePlot_spec_witness :
  exists g' : Plot nat,
    updatePlot {| isPaused := false; seriesI := []; seriesQ := [] |}
      [(1, 2); (3, 4)] = Some g' /\
    seriesI g' = [(0%Z, 1); (1%Z, 3)] /\ seriesQ g' = [(0%Z, 2); (1%Z, 4)].
Proof.
  destruct (@updatePlot_spec nat
              {| isPaused := false; seriesI := []; seriesQ := [] |}
              [(1, 2); (3, 4)]) as (g' & Hrun & _ & Hplot).
  exists g'. split; [exact Hrun|].
  destruct Hplot as (_ & HI & HQ);
    [reflexivity | discriminate | cbn; lia |].
  split; assumption.
Defined.

Section AxisFacts.

Local Open Scope R_scope.

#[local] Arguments buff_size : simpl never.

(** X11.  Of a buffer the worker synthesized with an amplitude in
    [[0, 1]] (the range of the amplitude box), a running [updatePlot] plots
    exactly 500 points in each series, at x = 0 .. 499, and every value lies
    in [[-1, 1]], inside the vertical axis range of [[-1.5, 1.5]]. *)
Theorem plotted_points_fit_the_axes (g g' : Plot R) (c : Cycle R) (ph : R) :
  0 <= amplitude (regs c) <= 1 ->
  isPaused g = false ->
  updatePlot g (pass_buffer c ph) = Some g' ->
  List.length (seriesI g') = 500%nat /\
  List.length (seriesQ g') = 500%nat /\
  forall (x : Z) (y : R),
    In (x, y) (seriesI g' ++ seriesQ g') ->
    (0 <= x <= 499)%Z /\ -1 <= y <= 1.
Proof.
  intros Hamp Hp Hplot.
  assert (Hlen : List.length (pass_buffer c ph) = buff_size)
    by apply pass_buffer_length.
  assert (Hmin : Nat.min (List.length (pass_buffer c ph)) 500 = 500%nat)
    by (rewrite Hlen; reflexivity).
  rewrite updatePlot_plots in Hplot.
  - rewrite Hmin in Hplot. injection Hplot as <-. cbn [seriesI seriesQ].
    assert (Hfit : (500 <= List.length (pass_buffer c ph))%nat)
      by (rewrite Hlen; unfold buff_size; lia).
    split; [now apply numbered_length|]. split; [now apply numbered_length|].
    intros x y Hin.
    assert (Hpoint : (0 <= x < Z.of_nat 500)%Z /\
                     exists p, In p (pass_buffer c ph) /\
                               (y = fst p \/ y = snd p)).
    { apply in_app_or in Hin.
      destruct Hin as [Hin | Hin]; apply numbered_in in Hin;
        destruct Hin as (Hx & p & Hp' & Hy); (split; [exact Hx|]);
        exists p; auto. }
    destruct Hpoint as (Hx & [re im] & Hin' & Hy). split; [lia|].
    unfold pass_buffer, samples_from in Hin'.
    apply in_map_iff in Hin'. destruct Hin' as (i & Hsample & _).
    destruct (gen_sample_bounded _ _ Hamp Hsample) as [Hre Him].
    cbn [fst snd] in Hy. destruct Hy as [-> | ->]; assumption.
  - exact Hp.
  - intros Hnil. rewrite Hnil in Hlen. discriminate.
  - rewrite Hlen. unfold buff_size. lia.
Qed.

End AxisFacts.

Lemma plotted_points_fit_the_axes_witness :
  exists g' : Plot R,
    updatePlot {| isPaused := false; seriesI := []; seriesQ := [] |}
      (pass_buffer (quiet_pass 1 0) 0%R) = Some g' /\
    List.length (seriesI g') = 500.
Proof.
  assert (Hlen : List.length (pass_buffer (quiet_pass 1 0) 0%R) = buff_size)
    by apply pass_buffer_length.
  assert (Hplot : updatePlot
                    {| isPaused := false; seriesI := []; seriesQ := [] |}
                    (pass_buffer (quiet_pass 1 0) 0%R)
                  = Some {| isPaused := false;
                            seriesI := numbered fst
                              (Nat.min (List.length
                                 (pass_buffer (quiet_pass 1 0) 0%R)) 500)
                              (pass_buffer (quiet_pass 1 0) 0%R);
                            seriesQ := numbered snd
                              (Nat.min (List.length
                                 (pass_buffer (quiet_pass 1 0) 0%R)) 500)
                              (pass_buffer (quiet_pass 1 0) 0%R) |}).
  { apply updatePlot_plots.
    - reflexivity.
    - intros Hnil. rewrite Hnil in Hlen. discriminate.
    - rewrite Hlen. unfold buff_size. lia. }
  eexists. split; [exact Hplot|].
  assert (Hamp : (0 <= amplitude (regs (quiet_pass 1 0)) <= 1)%R)
    by (cbn; lra).
  exact (proj1 (@plotted_points_fit_the_axes
                  {| isPaused := false; seriesI := []; seriesQ := [] |} _
                  (quiet_pass 1 0) 0%R Hamp eq_refl Hplot)).
Defined.

End GuiFacts.

(* ================================================================== *)
(** ** The device list *)

Module DeviceListFacts.

Import Gui.

Section DeviceFacts.

Variable to_string : device_addr -> string.

Local Open Scope string_scope.

Lemma add_devices_spec (devices : list device_addr) : forall combo,
  add_devices to_string devices combo
  = (if forallb (well_formed to_string) devices then Ok tt else Thrown,
     (combo ++ listed to_string devices)%list).
Proof.
  induction devices as [|dev rest IH]; intros combo.
  - cbn. now rewrite app_nil_r.
  - cbn [add_devices forallb listed]. unfold well_formed, entry, bind, get.
    destruct (lookup dev "type") as [type|]; [| now rewrite app_nil_r].
    destruct (lookup dev "serial") as [serial|]; [| now rewrite app_nil_r].
    unfold addItem, modify. rewrite IH. cbn [andb].
    now rewrite <- app_assoc.
Qed.

Lemma refreshDevices_unfold (devices : list device_addr) (combo : Combo) :
  refreshDevices to_string devices combo
  = (if forallb (well_formed to_string) devices then Ok tt else Thrown,
     ("Simulation Mode", EmptyString) :: listed to_string devices).
Proof.
  unfold refreshDevices, bind, addItem, modify. cbn [app].
  now rewrite add_devices_spec.
Qed.

Lemma has_keys_entry (dev : device_addr) :
  has_keys dev ->
  exists type serial,
    lookup dev "type" = Some type /\ lookup dev "serial" = Some serial /\
    entry to_string dev = Some (type ++ " (" ++ serial ++ ")", to_string dev).
Proof.
  intros (type & serial & Ht & Hs). exists type, serial.
  unfold entry. now rewrite Ht, Hs.
Qed.

Lemma listed_good (good rest : list device_addr) :
  Forall has_keys good ->
  List.length (listed to_string good) = List.length good /\
  forallb (well_formed to_string) good = true /\
  (forall k dev,
     nth_error good k = Some dev ->
     nth_error (listed to_string (good ++ rest)) k = entry to_string dev) /\
  listed to_string (good ++ rest)
  = (listed to_string good ++ listed to_string rest)%list.
Proof.
  induction 1 as [|dev good Hdev _ IH].
  - repeat split; auto. intros [|k] dev; discriminate.
  - destruct IH as (Hlen & Hall & Hnth & Happ).
    destruct (has_keys_entry Hdev) as (type & serial & _ & _ & He).
    cbn [app listed forallb]. unfold well_formed. rewrite He.
    cbn [List.length andb app]. repeat split.
    + now rewrite Hlen.
    + exact Hall.
    + intros [|k] dev' Hk.
      * injection Hk as <-. now rewrite He.
      * now apply Hnth.
    + now rewrite Happ.
Qed.

(** X12.  When every device found has a "type" and a "serial",
    [refreshDevices] returns and the combo holds, whatever it held before:
    the entry "Simulation Mode" with empty data at index 0, then one entry
    for each device in the order found, with text [type (serial)] and the
    device address as data. *)
Theorem refreshDevices_lists_devices (devices : list device_addr)
    (combo : Combo) :
  Forall has_keys devices ->
  let after := refreshDevices to_string devices combo in
  fst after = Ok tt /\
  List.length (snd after) = S (List.length devices) /\
  nth_error (snd after) 0 = Some ("Simulation Mode", EmptyString) /\
  currentData (snd after) 0 = EmptyString /\
  (forall k dev,
     nth_error devices k = Some dev ->
     currentData (snd after) (S k) = to_string dev /\
     exists type serial,
       lookup dev "type" = Some type /\ lookup dev "serial" = Some serial /\
       nth_error (snd after) (S k)
       = Some (type ++ " (" ++ serial ++ ")", to_string dev)).
Proof.
  intros Hgood after. subst after. rewrite refreshDevices_unfold.
  destruct (listed_good [] Hgood) as (Hlen & Hall & Hnth & _).
  rewrite app_nil_r in Hnth. rewrite Hall. cbn [fst snd].
  repeat split.
  - cbn [List.length]. now rewrite Hlen.
  - unfold currentData. cbn [nth_error].
    rewrite (Hnth k dev H).
    assert (Hdev : has_keys dev).
    { rewrite Forall_forall in Hgood. apply Hgood.
      eapply nth_error_In; eassumption. }
    destruct (has_keys_entry Hdev) as (type & serial & _ & _ & ->).
    reflexivity.
  - assert (Hdev : has_keys dev).
    { rewrite Forall_forall in Hgood. apply Hgood.
      eapply nth_error_In; eassumption. }
    destruct (has_keys_entry Hdev) as (type & serial & Ht & Hs & He).
    exists type, serial. repeat split; try assumption.
    cbn [nth_error]. now rewrite (Hnth k dev H).
Qed.

(** X13.  A device without "type" or without "serial" makes
    [refreshDevices] throw [uhd::key_error], which nothing catches.  The
    combo then holds "Simulation Mode" and the devices found before that
    one; the devices after it are not listed. *)
Theorem refreshDevices_stops_at_missing_key
    (good : list device_addr) (bad : device_addr) (rest : list device_addr)
    (combo : Combo) :
  Forall has_keys good ->
  lookup bad "type" = None \/ lookup bad "serial" = None ->
  let after := refreshDevices to_string (good ++ bad :: rest) combo in
  fst after = Thrown /\
  List.length (snd after) = S (List.length good) /\
  nth_error (snd after) 0 = Some ("Simulation Mode", EmptyString) /\
  (forall k dev,
     nth_error good k = Some dev ->
     currentData (snd after) (S k) = to_string dev).
Proof.
  intros Hgood Hbad after. subst after. rewrite refreshDevices_unfold.
  destruct (listed_good (bad :: rest) Hgood) as (Hlen & Hall & Hnth & Happ).
  assert (Hentry : entry to_string bad = None).
  { unfold entry. destruct Hbad as [-> | ->]; [reflexivity|].
    now destruct (lookup bad "type"). }
  rewrite forallb_app, Hall. cbn [forallb andb]. unfold well_formed at 1.
  rewrite Hentry. cbn [fst snd andb]. repeat split.
  - rewrite Happ. cbn [listed]. rewrite Hentry, app_nil_r.
    cbn [List.length]. now rewrite Hlen.
  - intros k dev Hk. unfold currentData. cbn [nth_error].
    rewrite (Hnth k dev Hk).
    assert (Hdev : has_keys dev).
    { rewrite Forall_forall in Hgood. apply Hgood.
      eapply nth_error_In; eassumption. }
    destruct (has_keys_entry Hdev) as (type & serial & _ & _ & ->).
    reflexivity.
Qed.

End DeviceFacts.

End DeviceListFacts.

Lemma refreshDevices_lists_devices_witness :
  Gui.currentData
    (snd (Gui.refreshDevices (fun _ => b200)
            [[("type", "b200"); ("serial", "30F1A2")]%string] []))
    1
  = b200.
Proof.
  refine (proj1 (proj2 (proj2 (proj2 (proj2
            (@DeviceListFacts.refreshDevices_lists_devices (fun _ => b200)
               [[("type", "b200"); ("serial", "30F1A2")]%string] [] _)))) 0
            _ eq_refl)).
  repeat constructor. now exists "b200"%string, "30F1A2"%string.
Defined.

Lemma refreshDevices_stops_at_missing_key_witness :
  fst (Gui.refreshDevices (fun _ => b200)
         [[("type", "b200"); ("serial", "30F1A2")]%string;
          [("type", "x300")]%string;
          [("type", "b200"); ("serial", "30F1A3")]%string] [])
  = Thrown /\
  List.length
    (snd (Gui.refreshDevices (fun _ => b200)
            [[("type", "b200"); ("serial", "30F1A2")]%string;
             [("type", "x300")]%string;
             [("type", "b200"); ("serial", "30F1A3")]%string] []))
  = 2.
Proof.
  destruct (@DeviceListFacts.refreshDevices_stops_at_missing_key
              (fun _ => b200)
              [[("type", "b200"); ("serial", "30F1A2")]%string]
              [("type", "x300")]%string
              [[("type", "b200"); ("serial", "30F1A3")]%string] [])
    as (Hthrown & Hlen & _).
  - repeat constructor. now exists "b200"%string, "30F1A2"%string.
  - now right.
  - split; assumption.
Defined.

(* ================================================================== *)
(** ** The snapshot channel: exclusion, progress, order *)

Module ChannelMoreFacts.

Import SnapshotChannel ChannelViews SnapshotChannelFacts.

Ltac fields :=
  cbn [data_mutex shared_buffer worker_pc to_publish reader_pc local_data
       published].

Section MoreFacts.

Context {A : Type}.

Implicit Types (s : Channel A) (b : list A) (bufs : list (list A)).

(** X14.  Under every schedule the worker and the reader are never both
    between taking and releasing [data_mutex], and the mutex records
    exactly who is: the worker, the reader, or nobody. *)
Theorem critical_sections_exclude (slot0 : list A) bufs
    (schedule : list Thread) :
  let s := exec schedule (init slot0 bufs) in
  worker_inside s && reader_inside s = false /\
  (data_mutex s = Some WorkerThread <-> worker_inside s = true) /\
  (data_mutex s = Some GuiThread <-> reader_inside s = true) /\
  (data_mutex s = None <->
   worker_inside s = false /\ reader_inside s = false).
Proof.
  intros s.
  assert (Hinv : invariant slot0 s)
    by (apply exec_invariant, invariant_init).
  clearbody s. destruct Hinv as [Hw Hr].
  unfold worker_inside, reader_inside.
  destruct (data_mutex s) as [[|]|];
    destruct (worker_pc s); destruct (reader_pc s);
    cbn; intuition congruence.
Qed.

Lemma exec_app (l l' : list Thread) s :
  exec (l ++ l') s = exec l' (exec l s).
Proof.
  revert s. induction l as [|t l IH]; intros s; [reflexivity|].
  cbn [app exec]. apply IH.
Qed.

Lemma exec_worker_plus (n m : nat) s :
  exec (repeat WorkerThread (n + m)) s
  = exec (repeat WorkerThread m) (exec (repeat WorkerThread n) s).
Proof. now rewrite repeat_app, exec_app. Qed.

(** The assignment from element [i] to the end, with nobody else moving. *)
Lemma assign_steps b (rest : list (list A)) (k : nat) :
  forall (i : nat) (m : option Thread) (shared : list A) r l p,
    i + k = List.length b ->
    firstn i shared = firstn i b ->
    exists shared',
      exec (repeat WorkerThread k)
        {| data_mutex := m; shared_buffer := shared; worker_pc := Assigning i;
           to_publish := b :: rest; reader_pc := r; local_data := l;
           published := p |}
      = {| data_mutex := m; shared_buffer := shared';
           worker_pc := Assigning (List.length b);
           to_publish := b :: rest; reader_pc := r; local_data := l;
           published := p |} /\
      firstn (List.length b) shared' = b.
Proof.
  induction k as [|k IH]; intros i m shared r l p Hlen Hpre.
  - exists shared. rewrite Nat.add_0_r in Hlen. subst i.
    split; [reflexivity|]. rewrite Hpre. apply firstn_all.
  - cbn [repeat exec]. unfold step at 1, worker_step at 1. fields.
    destruct (nth_error b i) as [x|] eqn:Hnth.
    + apply (IH (S i)); [lia|].
      rewrite firstn_assign_at by (apply firstn_agree_length with b;
                                   [lia | exact Hpre]).
      rewrite (firstn_snoc _ _ Hnth). now f_equal.
    + apply nth_error_None in Hnth. lia.
Qed.

(** One whole publication, from [tryLock] on a free mutex to after
    [unlock], with nobody else moving. *)
Lemma publish_uncontended b (rest : list (list A)) (shared : list A) r l p :
  exec (repeat WorkerThread (publish_steps b))
    {| data_mutex := None; shared_buffer := shared; worker_pc := AtTryLock;
       to_publish := b :: rest; reader_pc := r; local_data := l;
       published := p |}
  = {| data_mutex := None; shared_buffer := b; worker_pc := AtTryLock;
       to_publish := rest; reader_pc := r; local_data := l;
       published := b :: p |}.
Proof.
  unfold publish_steps.
  replace (List.length b + 3) with (1 + (List.length b + 2)) by lia.
  rewrite exec_worker_plus. cbn [repeat exec]. unfold step at 1.
  unfold worker_step at 1. fields.
  rewrite exec_worker_plus.
  destruct (@assign_steps b rest (List.length b) 0 (Some WorkerThread)
              shared r l p eq_refl eq_refl) as (shared' & -> & Hwhole).
  cbn [repeat exec]. unfold step, worker_step. fields.
  assert (Hend : nth_error b (List.length b) = None)
    by (apply nth_error_None; lia).
  rewrite Hend. fields. now rewrite Hwhole.
Qed.

Lemma worker_done_stays (n : nat) s :
  to_publish s = [] -> exec (repeat WorkerThread n) s = s.
Proof.
  intros Hdone. induction n as [|n IH]; [reflexivity|].
  cbn [repeat exec]. unfold step, worker_step. now rewrite Hdone.
Qed.

Lemma last_of_nonempty {X : Type} (x : X) (l : list X) (d d' : X) :
  last (d :: x :: l) d' = last (x :: l) d.
Proof.
  cbn [last]. revert x. induction l as [|y l IH]; intros x; [reflexivity|].
  apply IH.
Qed.

Lemma publish_all_uncontended bufs : forall (shared : list A) r l p,
  exec (repeat WorkerThread (all_publish_steps bufs))
    {| data_mutex := None; shared_buffer := shared; worker_pc := AtTryLock;
       to_publish := bufs; reader_pc := r; local_data := l;
       published := p |}
  = {| data_mutex := None; shared_buffer := last bufs shared;
       worker_pc := AtTryLock; to_publish := []; reader_pc := r;
       local_data := l; published := rev bufs ++ p |}.
Proof.
  induction bufs as [|b bufs IH]; intros shared r l p; [reflexivity|].
  unfold all_publish_steps in *.
  change (list_sum (map publish_steps (b :: bufs)))
    with (publish_steps b + list_sum (map publish_steps bufs)).
  rewrite exec_worker_plus, publish_uncontended, IH.
  cbn [rev]. rewrite <- app_assoc. cbn [app]. f_equal.
  destruct bufs as [|b' bufs]; [reflexivity|].
  now rewrite (last_of_nonempty b' bufs b shared).
Qed.

(** X15.  When the reader does not move, the worker publishes every buffer:
    after at most [length b + 3] of its steps for each buffer [b], all of
    them are published in the order synthesized, [shared_buffer] is the
    last one, whole, and the mutex is free. *)
Theorem uncontended_worker_publishes_everything (slot0 : list A) bufs
    (n : nat) :
  all_publish_steps bufs <= n ->
  let s := exec (repeat WorkerThread n) (init slot0 bufs) in
  published s = rev bufs /\
  to_publish s = [] /\
  shared_buffer s = last bufs slot0 /\
  data_mutex s = None.
Proof.
  intros Hn s. subst s.
  replace n with (all_publish_steps bufs + (n - all_publish_steps bufs))
    by lia.
  rewrite exec_worker_plus. unfold init.
  rewrite publish_all_uncontended, worker_done_stays by reflexivity.
  fields. now rewrite app_nil_r.
Qed.

(** X16.  Whenever the worker holds [data_mutex] it releases it within
    [length b + 2] of its own steps, [b] being the buffer it is publishing,
    and [shared_buffer] is then [b], whole: a reader waiting in [lock] waits
    for at most one buffer copy. *)
Theorem worker_releases_within_one_copy (slot0 : list A) bufs
    (schedule : list Thread) :
  let s := exec schedule (init slot0 bufs) in
  data_mutex s = Some WorkerThread ->
  exists b rest k,
    to_publish s = b :: rest /\
    k <= List.length b + 2 /\
    data_mutex (exec (repeat WorkerThread k) s) = None /\
    shared_buffer (exec (repeat WorkerThread k) s) = b.
Proof.
  intros s Hheld.
  assert (Hinv : invariant slot0 s)
    by (apply exec_invariant, invariant_init).
  clearbody s. destruct Hinv as [Hw _].
  destruct s as [m shared wpc todo rpc ld pub]. cbn in Hheld, Hw.
  destruct wpc as [|i|].
  - destruct Hw as [Hfree _]. contradiction.
  - destruct Hw as [_ (b & rest & -> & Hi & Hpre)].
    exists b, rest, ((List.length b - i) + 2). split; [reflexivity|].
    split; [lia|]. rewrite exec_worker_plus.
    destruct (@assign_steps b rest (List.length b - i) i m shared rpc ld pub)
      as (shared' & -> & Hwhole); [lia | exact Hpre |].
    cbn [repeat exec]. unfold step, worker_step. fields.
    assert (Hend : nth_error b (List.length b) = None)
      by (apply nth_error_None; lia).
    rewrite Hend. fields. now split.
  - destruct Hw as [_ (b & rest & -> & Hslot)].
    exists b, rest, 1. split; [reflexivity|]. split; [lia|].
    cbn [repeat exec]. unfold step, worker_step. fields. now split.
Qed.

Lemma subsequence_skip_last {X : Type} (l d : list X) (x : X) :
  subsequence l d -> subsequence l (d ++ [x]).
Proof.
  induction 1 as [|y l d _ IH|y l d _ IH]; cbn.
  - apply sub_skip, sub_nil.
  - now apply sub_skip.
  - now apply sub_keep.
Qed.

Lemma subsequence_keep_last {X : Type} (l d : list X) (x : X) :
  subsequence l d -> subsequence (l ++ [x]) (d ++ [x]).
Proof.
  induction 1 as [|y l d _ IH|y l d _ IH]; cbn.
  - apply sub_keep, sub_nil.
  - now apply sub_skip.
  - now apply sub_keep.
Qed.

Lemma step_history_ordered bufs (t : Thread) s :
  history_ordered bufs s -> history_ordered bufs (step t s).
Proof.
  intros (done & Hbufs & Hsub). unfold step, history_ordered.
  destruct t.
  - unfold worker_step.
    destruct (to_publish s) as [|b rest] eqn:Htodo.
    + exists done. rewrite Htodo. now split.
    + assert (Hpop : bufs = (done ++ [b]) ++ rest)
        by now rewrite <- app_assoc.
      destruct (worker_pc s) as [|i|].
      * destruct (data_mutex s); fields.
        -- exists (done ++ [b]). split; [exact Hpop|].
           now apply subsequence_skip_last.
        -- exists done. now split.
      * destruct (nth_error b i); fields; exists done; now split.
      * fields. exists (done ++ [b]). split; [exact Hpop|].
        cbn [rev]. now apply subsequence_keep_last.
  - unfold reader_step.
    destruct (reader_pc s) as [|j| |].
    + destruct (data_mutex s); fields; now exists done.
    + destruct (nth_error (shared_buffer s) j); fields; now exists done.
    + fields. now exists done.
    + fields. now exists done.
Qed.

(** X17.  Under every schedule the buffers published so far are, in the
    order of their publication, some of the buffers the worker has been
    through, in the order it synthesized them: a pass is published once or
    skipped, and the snapshot never goes back to an older buffer. *)
Theorem publications_follow_synthesis_order (slot0 : list A) bufs
    (schedule : list Thread) :
  let s := exec schedule (init slot0 bufs) in
  exists done,
    bufs = done ++ to_publish s /\
    subsequence (rev (published s)) done.
Proof.
  intros s. subst s.
  assert (Hgen : forall s0, history_ordered bufs s0 ->
                            history_ordered bufs (exec schedule s0)).
  { induction schedule as [|t rest IH]; intros s0 H0; [exact H0|].
    cbn [exec]. apply IH. now apply step_history_ordered. }
  apply Hgen. exists []. split; [reflexivity | apply sub_nil].
Qed.

End MoreFacts.

Lemma critical_sections_exclude_witness :
  worker_inside
    (exec [WorkerThread; GuiThread; WorkerThread] (init [] [[1; 2]; [3; 4]]))
  = true /\
  reader_inside
    (exec [WorkerThread; GuiThread; WorkerThread] (init [] [[1; 2]; [3; 4]]))
  = false.
Proof.
  destruct (@critical_sections_exclude nat [] [[1; 2]; [3; 4]]
              [WorkerThread; GuiThread; WorkerThread])
    as (Hexcl & Hworker & _).
  assert (Hin : worker_inside
                  (exec [WorkerThread; GuiThread; WorkerThread]
                     (init [] [[1; 2]; [3; 4]])) = true)
    by (apply Hworker; reflexivity).
  split; [exact Hin|].
  rewrite Hin in Hexcl. exact Hexcl.
Defined.

Lemma uncontended_worker_publishes_everything_witness :
  published (exec (repeat WorkerThread 10) (init [] [[1; 2]; [3; 4]]))
  = [[3; 4]; [1; 2]].
Proof.
  refine (proj1 (@uncontended_worker_publishes_everything nat []
                   [[1; 2]; [3; 4]] 10 _)).
  cbn. lia.
Defined.

Lemma worker_releases_within_one_copy_witness :
  exists b rest k,
    to_publish (exec [WorkerThread; WorkerThread] (init [] [[1; 2]; [3; 4]]))
    = b :: rest /\
    k <= List.length b + 2 /\
    data_mutex
      (exec (repeat WorkerThread k)
         (exec [WorkerThread; WorkerThread] (init [] [[1; 2]; [3; 4]])))
    = None /\
    shared_buffer
      (exec (repeat WorkerThread k)
         (exec [WorkerThread; WorkerThread] (init [] [[1; 2]; [3; 4]])))
    = b.
Proof.
  exact (@worker_releases_within_one_copy nat [] [[1; 2]; [3; 4]]
           [WorkerThread; WorkerThread] eq_refl).
Defined.

End ChannelMoreFacts.

(* ================================================================== *)
(** ** The frames of a run, whatever the driver does *)

Section AnyDriver.

Context {T : Type} {SC : Scalar T} {TR : Trig T}.

Implicit Types (d : Driver T) (c : Cycle T) (s : RunState T)
  (e : Env T) (w : Worker T).

#[local] Arguments synthesize : simpl never.
#[local] Arguments synthesized : simpl never.
#[local] Arguments buff_size : simpl never.

Lemma data_frames_S (m : nat) :
  data_frames (S m)
  = (buff_size, true, false) :: repeat (buff_size, false, false) m.
Proof.
  unfold data_frames. cbn [seq map Nat.eqb]. f_equal.
  rewrite <- seq_shift, map_map. cbn [Nat.eqb].
  induction m as [|m IH]; [reflexivity|].
  rewrite seq_S, map_app, IH. cbn [map Nat.add].
  now rewrite <- repeat_cons.
Qed.

Lemma firstn_burst_frames (m n : nat) :
  m <= n -> firstn m (burst_frames n) = data_frames m.
Proof.
  intros Hm. unfold burst_frames, data_frames.
  replace n with (m + (n - m)) at 1 by lia.
  rewrite seq_app, map_app, <- app_assoc.
  assert (Hlen : List.length
                   (map (fun k => (buff_size, Nat.eqb k 0, false)) (seq 0 m))
                 = m)
    by now rewrite length_map, length_seq.
  rewrite firstn_app, Hlen, Nat.sub_diag, firstn_all2 by lia.
  cbn [firstn]. apply app_nil_r.
Qed.

(** The frames of the passes of a session that has just connected. *)
Lemma send_through_data_frames cs s :
  List.length (buff s) = buff_size ->
  md s = {| start_of_burst := true; end_of_burst := false |} ->
  frames (trace (send_through cs s))
  = frames (trace s) ++ data_frames (List.length cs).
Proof.
  intros Hlen Hmd. rewrite send_through_frames by assumption.
  rewrite Hmd. cbn [start_of_burst end_of_burst].
  destruct cs as [|c cs]; [reflexivity|].
  cbn [List.length]. now rewrite data_frames_S.
Qed.

(** Either every send up to number [n] returns, or there is a first one
    that throws. *)
Lemma first_failure d (n : nat) :
  (forall k, k <= n -> send_ok d k = true) \/
  exists k,
    k <= n /\ send_ok d k = false /\ forall j, j < k -> send_ok d j = true.
Proof.
  induction n as [|n IH].
  - destruct (send_ok d 0) eqn:H0.
    + left. intros k Hk. now replace k with 0 by lia.
    + right. exists 0. repeat split; auto. intros j Hj. lia.
  - destruct IH as [Hall | (k & Hk & Hfail & Hbefore)].
    + destruct (send_ok d (S n)) eqn:Hn.
      * left. intros k Hk.
        destruct (Nat.eq_dec k (S n)) as [-> | Hne]; [exact Hn|].
        apply Hall. lia.
      * right. exists (S n). repeat split; auto.
        intros j Hj. apply Hall. lia.
    + right. exists k. repeat split; auto.
Qed.

Lemma end_burst_throws d s :
  hardware_connected s = true -> tx_stream s = true ->
  send_ok d (sends s) = false ->
  fst (end_burst d s) = Thrown /\ trace (snd (end_burst d s)) = trace s.
Proof.
  intros Hhc Hptr Hfail. unfold end_burst, send. unfold_monad.
  rewrite Hhc. cbn [tx_stream set_md]. rewrite Hptr.
  cbn [sends set_md]. rewrite Hfail. split; reflexivity.
Qed.

(** X18.  Whatever the driver does, the frames a run has sent are an
    initial part of one burst: full buffers, the first of them opening the
    burst, and the empty closing frame only after a buffer for every pass.
    The worker never sends a partial buffer, never opens the burst twice,
    and never sends anything after the closing frame. *)
Theorem frames_are_a_burst_prefix d e w :
  exists k,
    frames (trace (snd (run d e w)))
    = firstn k (burst_frames (List.length (cycles e))).
Proof.
  destruct (connect_succeeds d (device_args w) (at_connect e)) eqn:Hconn.
  2:{ exists 0. now rewrite run_not_connected_frames. }
  pose proof (connect_succeeds_not_empty _ _ _ Hconn) as Hne.
  set (s0 := after_connect d (device_args w) (at_connect e) (enter w)).
  assert (Hhc : hardware_connected s0 = true)
    by (subst s0; cbn; now rewrite Hne).
  assert (Hptr : tx_stream s0 = true) by (subst s0; cbn; now rewrite Hconn).
  assert (Hmd : md s0 = {| start_of_burst := true; end_of_burst := false |})
    by (subst s0; cbn; now rewrite Hconn).
  assert (Hlen : List.length (buff s0) = buff_size)
    by apply enter_buff_length.
  assert (Hpre : frames (trace s0) = []) by apply after_connect_frames.
  destruct (first_failure d (List.length (cycles e)))
    as [Hall | (k & Hk & Hfail & Hbefore)].
  - exists (S (List.length (cycles e))).
    rewrite run_streaming by assumption. cbn [snd]. fold s0.
    unfold after_end_burst. cbn [trace count_send log set_md md].
    rewrite frames_app, send_through_data_frames, Hpre by assumption.
    rewrite firstn_all2
      by (unfold burst_frames;
          rewrite length_app, length_map, length_seq; cbn; lia).
    rewrite send_through_md, Hmd. unfold burst_frames, data_frames.
    cbn [app frames send_frame start_of_burst end_of_burst].
    now destruct (cycles e).
  - destruct (Nat.eq_dec k (List.length (cycles e))) as [-> | Hlt].
    + exists (List.length (cycles e)).
      rewrite run_unfold. fold s0.
      assert (Hpasses : forall j,
                 j < List.length (cycles e) -> send_ok d (sends s0 + j) = true)
        by (intros j Hj; subst s0; cbn; apply Hbefore; exact Hj).
      rewrite loop_sends by assumption.
      destruct (@end_burst_throws d (send_through (cycles e) s0))
        as [_ Htr].
      * now rewrite send_through_hardware_connected.
      * now rewrite send_through_tx_stream.
      * rewrite send_through_sends. subst s0. cbn. exact Hfail.
      * rewrite Htr, send_through_data_frames, Hpre by assumption.
        now rewrite firstn_burst_frames.
    + exists k.
      destruct (@run_send_throws _ _ _ d e w k Hconn Hbefore Hfail)
        as (c & _ & ->); [lia|].
      cbn [snd]. fold s0.
      rewrite synthesized_trace, send_through_data_frames, Hpre
        by assumption.
      rewrite length_firstn, firstn_burst_frames by lia.
      cbn [app]. f_equal. lia.
Qed.

End AnyDriver.

(* ================================================================== *)
(** ** A burst that is never closed *)

Section OpenBursts.

Context {T : Type} {SC : Scalar T} {TR : Trig T}.

Implicit Types (d : Driver T) (c : Cycle T) (s : RunState T)
  (e : Env T) (w : Worker T).

#[local] Arguments synthesize : simpl never.
#[local] Arguments synthesized : simpl never.
#[local] Arguments buff_size : simpl never.

Lemma firstn_repeat_le (A : Type) (x : A) (k : nat) : forall m,
  k <= m -> firstn k (repeat x m) = repeat x k.
Proof.
  induction k as [|k IH]; intros m Hm; [reflexivity|].
  destruct m as [|m]; [lia|].
  cbn [repeat firstn]. f_equal. apply IH. lia.
Qed.

Lemma data_frames_opens (k : nat) :
  map opens_burst (data_frames k) = firstn k (true :: repeat false k).
Proof.
  destruct k as [|k]; [reflexivity|].
  rewrite data_frames_S. cbn [map opens_burst fst snd firstn]. f_equal.
  rewrite map_repeat. cbn [opens_burst fst snd].
  symmetry. apply firstn_repeat_le. lia.
Qed.

Lemma data_frames_closes (k : nat) :
  filter closes_burst (data_frames k) = [].
Proof.
  unfold data_frames.
  induction (seq 0 k) as [|j js IH]; [reflexivity | exact IH].
Qed.


End OpenBursts.

